(** * Isolation competition agent: iterative-deepening alpha-beta search

    A shallow embedding of [isolation/competition_agent.py]: the heuristic
    [custom_score] and the class [CustomPlayer] with [get_move], [alphabeta],
    [_max_value] and [_min_value].

    Modelling choices.
    - The board ([isolation.Board]) is a collaborator of the agent: its
      queries are the operations of the class [Board] below, pure functions
      of an immutable game value.
    - A Python float score is an element of [sc]: minus infinity, a finite
      value, or plus infinity.  Finite values are exact rationals; rounding of
      the finite arithmetic is not modelled, comparisons are.
    - [time_left] is a callable whose successive calls may return different
      values: a [clock] maps the number of calls made so far to the reading
      of the next call, and the [world] counts the calls.
    - The [world] also keeps a trace of the calls the search makes on its
      collaborators (clock, evaluator, board, random generator), newest first.
    - [SearchTimeout] (and the [TypeError] of calling [self.time_left] while
      it is still [None]) are results [Raise e] of a state-and-exception
      monad [M].
    - [while True] is run with a bound [fuel] on the number of iterations;
      [None] means the loop is still running when the bound is reached.
    - [depth] is a natural number: [get_move] passes 1, 2, 3, ... and the
      node routines count it down to the test [depth == 0].
    - [random.choice] takes the draw of the generator as a parameter, and
      leaves an event in the trace; its distribution is not modelled. *)

From Stdlib Require Import List ZArith QArith Lia Lqa Bool Arith.
From Stdlib Require Import Morphisms RelationClasses Orders OrdersTac.
Import ListNotations.

Set Implicit Arguments.

(** ** Scores: floats with infinities *)

Inductive sc : Type :=
| NegInf : sc              (* float("-inf") *)
| Fin : Q -> sc
| PosInf : sc.             (* float("inf") *)

(** [sc_leb a b] is Python's [a <= b]; [sc_ltb a b] is [a < b]. *)
Definition sc_leb (a b : sc) : bool :=
  match a, b with
  | NegInf, _ => true
  | _, PosInf => true
  | Fin x, Fin y => Qle_bool x y
  | _, _ => false
  end.

Definition sc_ltb (a b : sc) : bool := negb (sc_leb b a).

(** Python's [max(a, b)] returns [a] unless [b > a]; [min(a, b)] returns [a]
    unless [b < a]. *)
Definition sc_max (a b : sc) : sc := if sc_ltb a b then b else a.
Definition sc_min (a b : sc) : sc := if sc_ltb b a then b else a.

Definition sle (a b : sc) : Prop := sc_leb a b = true.
Definition slt (a b : sc) : Prop := sc_ltb a b = true.

Definition is_finite (s : sc) : bool :=
  match s with Fin _ => true | _ => false end.

(** Scores that the order does not tell apart (two representations of one
    rational, in particular). *)
Definition sc_equiv (a b : sc) : Prop :=
  (sc_leb a b && sc_leb b a)%bool = true.

(** What a node searched with the window [(alpha, beta)] promises about its
    returned score [v'], [v] being the minimax score of the node: at or
    below [alpha] it is an upper bound of [v], at or above [beta] a lower
    bound, strictly inside the window it is [v] (up to the order). *)
Definition bounds (alpha beta v' v : sc) : Prop :=
  (sle v' alpha -> sle v v') /\
  (sle beta v' -> sle v' v) /\
  (slt alpha v' -> slt v' beta -> sle v v' /\ sle v' v).

(** ** Moves *)

Definition move : Type := (Z * Z)%type.

(** The no-move sentinel [(-1, -1)]. *)
Definition sentinel : move := ((-1)%Z, (-1)%Z).

Definition move_eqb (a b : move) : bool :=
  (Z.eqb (fst a) (fst b) && Z.eqb (snd a) (snd b))%bool.

(** ** The board interface consumed by the agent *)

Class Board (game player : Type) : Type := {
  active_player : game -> player;
  get_legal_moves : game -> player -> list move;
  forecast_move : game -> move -> game;
  is_loser : game -> player -> bool;
  is_winner : game -> player -> bool;
  get_opponent : game -> player -> player;
  get_blank_spaces : game -> list move;
  get_player_location : game -> player -> move
}.

(** ** Exceptions, the world and the monad *)

Inductive exn : Type :=
| SearchTimeout : exn
| TypeError : exn.         (* calling [self.time_left] while it is [None] *)

Inductive res (A : Type) : Type :=
| Ok : A -> res A
| Raise : exn -> res A.

Arguments Ok {A} _.
Arguments Raise {A} _.

Definition clock : Type := nat -> Q.

Inductive event (game : Type) : Type :=
| EvClock : event game                     (* self.time_left() *)
| EvScore : game -> event game             (* self.score(game, self) *)
| EvMoves : game -> event game             (* game.get_legal_moves(...) *)
| EvForecast : game -> move -> event game  (* game.forecast_move(move) *)
| EvLocation : game -> event game          (* game.get_player_location(self) *)
| EvRandom : event game.                   (* random.choice(...) *)

Arguments EvClock {game}.
Arguments EvRandom {game}.

Record world (game : Type) : Type := mkWorld {
  ticks : nat;                 (* calls of the clock made so far *)
  trace : list (event game)    (* collaborator calls, newest first *)
}.

Definition M (game A : Type) : Type := world game -> res A * world game.

Definition ret {game A} (a : A) : M game A := fun w => (Ok a, w).

Definition bind {game A B} (m : M game A) (f : A -> M game B) : M game B :=
  fun w =>
    match m w with
    | (Ok a, w') => f a w'
    | (Raise e, w') => (Raise e, w')
    end.

Definition raise {game A} (e : exn) : M game A := fun w => (Raise e, w).

Definition emit {game} (e : event game) : M game unit :=
  fun w => (Ok tt, mkWorld (ticks w) (e :: trace w)).

Declare Scope search_scope.
Delimit Scope search_scope with search.
Notation "x <- c1 ;; c2" := (bind c1 (fun x => c2))
  (at level 61, c1 at next level, right associativity) : search_scope.
Notation "c1 ;;; c2" := (bind c1 (fun _ => c2))
  (at level 61, right associativity) : search_scope.
Open Scope search_scope.

(** [Qltb x y] is the float comparison [x < y] on clock readings. *)
Definition Qltb (x y : Q) : bool := negb (Qle_bool y x).

(** [sound c thr m]: whatever the world, a run of [m]
    - only adds to the trace and to the count of clock calls;
    - when it returns, met no reading below [thr];
    - when it raises, raises [SearchTimeout], and the reading below [thr]
      that caused it is the last one made. *)
Definition sound {game A : Type} (c : clock) (thr : Q) (m : M game A) : Prop :=
  forall w,
    match m w with
    | (Ok _, w') =>
        (ticks w <= ticks w')%nat /\
        (exists evs, trace w' = evs ++ trace w) /\
        (forall i, (ticks w <= i < ticks w')%nat -> Qltb (c i) thr = false)
    | (Raise e, w') =>
        e = SearchTimeout /\
        (ticks w < ticks w')%nat /\
        (exists evs, trace w' = evs ++ trace w) /\
        Qltb (c (pred (ticks w'))) thr = true /\
        (forall i, (ticks w <= i < pred (ticks w'))%nat ->
                   Qltb (c i) thr = false)
    end.

(** [adds P m]: every event a run of [m] adds to the trace satisfies [P]. *)
Definition adds {game A : Type} (P : event game -> Prop) (m : M game A)
    : Prop :=
  forall w, exists evs, trace (snd (m w)) = evs ++ trace w /\ Forall P evs.

Section Agent.

Context {game player : Type} {B : Board game player}.

(** ** The heuristic

    The finite branch is the formula of the source in exact rational
    arithmetic: the rounding of the binary64 operations is not modelled, so
    the value is the real number the source's float approximates.  The
    statements below use of it only that it is finite and how it moves
    with the three counts. *)

Definition count (l : list move) : Q := inject_Z (Z.of_nat (length l)).

Definition custom_score (g : game) (p : player) : sc :=
  if is_loser g p then NegInf
  else if is_winner g p then PosInf
  else
    let my_moves := count (get_legal_moves g p) in
    let opponent_moves := count (get_legal_moves g (get_opponent g p)) in
    let blank_slots := count (get_blank_spaces g) in
    Fin (my_moves - 2 * opponent_moves
         + (blank_slots / 2 + 2 * my_moves) / 13)%Q.

(** ** The agent object *)

Record CustomPlayer : Type := mkPlayer {
  ident : player;                     (* the object's identity on the board *)
  score : game -> player -> sc;       (* self.score *)
  time_left : option clock;           (* self.time_left *)
  TIMER_THRESHOLD : Q                 (* self.TIMER_THRESHOLD *)
}.

(** [CustomPlayer.__init__(self, data=None, timeout=1.)]; [self_id] is the
    identity of the object being initialised. *)
Definition CustomPlayer_init {D : Type} (self_id : player) (data : D)
    (timeout : Q) : CustomPlayer :=
  {| ident := self_id;
     score := custom_score;
     time_left := None;
     TIMER_THRESHOLD := timeout |}.

Definition set_time_left (self : CustomPlayer) (c : clock) : CustomPlayer :=
  {| ident := ident self;
     score := score self;
     time_left := Some c;
     TIMER_THRESHOLD := TIMER_THRESHOLD self |}.

(** An agent whose [time_left] attribute holds [old], all else as [self]. *)
Definition with_time_left (self : CustomPlayer) (old : option clock)
    : CustomPlayer :=
  {| ident := ident self;
     score := score self;
     time_left := old;
     TIMER_THRESHOLD := TIMER_THRESHOLD self |}.

(** ** Collaborator calls, each leaving its event in the trace *)

(** [self.time_left()] *)
Definition read_clock (self : CustomPlayer) : M game Q :=
  match time_left self with
  | None => raise TypeError
  | Some c =>
      fun w => (Ok (c (ticks w)), mkWorld (S (ticks w)) (EvClock :: trace w))
  end.

(** [if self.time_left() < self.TIMER_THRESHOLD: raise SearchTimeout()] *)
Definition check_time (self : CustomPlayer) : M game unit :=
  t <- read_clock self ;;
  if Qltb t (TIMER_THRESHOLD self) then raise SearchTimeout else ret tt.

(** [self.score(game, self)] *)
Definition call_score (self : CustomPlayer) (g : game) : M game sc :=
  emit (EvScore g) ;;; ret (score self g (ident self)).

(** [game.get_legal_moves(game.active_player)] *)
Definition call_legal_moves (g : game) : M game (list move) :=
  emit (EvMoves g) ;;; ret (get_legal_moves g (active_player g)).

(** [game.forecast_move(move)] *)
Definition call_forecast (g : game) (mv : move) : M game game :=
  emit (EvForecast g mv) ;;; ret (forecast_move g mv).

(** [game.get_player_location(self)] *)
Definition call_location (self : CustomPlayer) (g : game) : M game move :=
  emit (EvLocation g) ;;; ret (get_player_location g (ident self)).

(** [random.choice(seq)] is [seq[randbelow(len(seq))]]; the draw of the
    generator is [seed], reduced below the length. *)
Definition random_choice (seed : nat) (l : list move) : M game move :=
  emit EvRandom ;;; ret (nth (seed mod length l) l sentinel).

(** ** The fixed-depth search *)

Definition node : Type := (sc * move)%type.

(** The [for move in legal_moves] loop of [_max_value]; [child] is the
    recursive call [self._min_value(_, depth - 1, _, _)]. *)
Fixpoint max_loop (child : game -> sc -> sc -> M game node) (g : game)
    (moves : list move) (value_of_game : sc) (best_move : move)
    (alpha beta : sc) : M game node :=
  match moves with
  | [] => ret (value_of_game, best_move)
  | mv :: rest =>
      g' <- call_forecast g mv ;;
      r <- child g' alpha beta ;;
      let new_score := fst r in
      let value' :=
        if sc_ltb value_of_game new_score then new_score else value_of_game in
      let best' :=
        if sc_ltb value_of_game new_score then mv else best_move in
      if sc_leb beta new_score then ret (value', best')
      else max_loop child g rest value' best' (sc_max alpha new_score) beta
  end.

(** The loop of [_min_value]; [child] is [self._max_value(_, depth - 1, _, _)]. *)
Fixpoint min_loop (child : game -> sc -> sc -> M game node) (g : game)
    (moves : list move) (value_of_game : sc) (best_move : move)
    (alpha beta : sc) : M game node :=
  match moves with
  | [] => ret (value_of_game, best_move)
  | mv :: rest =>
      g' <- call_forecast g mv ;;
      r <- child g' alpha beta ;;
      let new_score := fst r in
      let value' :=
        if sc_ltb new_score value_of_game then new_score else value_of_game in
      let best' :=
        if sc_ltb new_score value_of_game then mv else best_move in
      if sc_leb new_score alpha then ret (value', best')
      else min_loop child g rest value' best' alpha (sc_min beta new_score)
  end.

(** What both node kinds do when [depth == 0]. *)
Definition depth_leaf (self : CustomPlayer) (g : game) : M game node :=
  s <- call_score self g ;;
  l <- call_location self g ;;
  ret (s, l).

(** What both node kinds do when there is no legal move. *)
Definition stuck_leaf (self : CustomPlayer) (g : game) : M game node :=
  s <- call_score self g ;;
  ret (s, sentinel).

Fixpoint _max_value (self : CustomPlayer) (depth : nat) (g : game)
    (alpha beta : sc) {struct depth} : M game node :=
  check_time self ;;;
  match depth with
  | O => depth_leaf self g
  | S depth' =>
      legal_moves <- call_legal_moves g ;;
      match legal_moves with
      | [] => stuck_leaf self g
      | _ :: _ =>
          max_loop (_min_value self depth') g legal_moves NegInf sentinel
                   alpha beta
      end
  end

with _min_value (self : CustomPlayer) (depth : nat) (g : game)
    (alpha beta : sc) {struct depth} : M game node :=
  check_time self ;;;
  match depth with
  | O => depth_leaf self g
  | S depth' =>
      legal_moves <- call_legal_moves g ;;
      match legal_moves with
      | [] => stuck_leaf self g
      | _ :: _ =>
          min_loop (_max_value self depth') g legal_moves PosInf sentinel
                   alpha beta
      end
  end.

(** [alphabeta(self, game, depth, alpha=float("-inf"), beta=float("inf"))] *)
Definition alphabeta (self : CustomPlayer) (g : game) (depth : nat)
    (alpha beta : sc) : M game move :=
  check_time self ;;;
  r <- _max_value self depth g alpha beta ;;
  ret (snd r).

(** ** Iterative deepening *)

(** The local variables of [get_move] that the loop updates. *)
Record locals : Type := mkLocals {
  depth : nat;
  chosen_move_in_time : move
}.

(** The body of [while True]:
    [chosen_move_in_time = self.alphabeta(game, depth); depth += 1]. *)
Definition loop_body (self : CustomPlayer) (g : game) (l : locals)
    : M game locals :=
  m <- alphabeta self g (depth l) NegInf PosInf ;;
  ret {| depth := S (depth l); chosen_move_in_time := m |}.

(** [while True: body].  The loop has no exit of its own: it ends only when
    the body raises, with the locals as the last completed iteration left
    them.  [None]: still running after [fuel] iterations. *)
Fixpoint deepening_loop (fuel : nat) (self : CustomPlayer) (g : game)
    (l : locals) (w : world game) : option (exn * locals * world game) :=
  match fuel with
  | O => None
  | S fuel' =>
      match loop_body self g l w with
      | (Ok l', w') => deepening_loop fuel' self g l' w'
      | (Raise e, w') => Some (e, l, w')
      end
  end.

(** The locals after [n] iterations of the body, when none of them raised. *)
Fixpoint iterate (n : nat) (self : CustomPlayer) (g : game) (l : locals)
    (w : world game) : option (locals * world game) :=
  match n with
  | O => Some (l, w)
  | S n' =>
      match iterate n' self g l w with
      | Some (l1, w1) =>
          match loop_body self g l1 w1 with
          | (Ok l2, w2) => Some (l2, w2)
          | (Raise _, _) => None
          end
      | None => None
      end
  end.

Definition initial_locals : locals :=
  {| depth := 1; chosen_move_in_time := sentinel |}.

(** The statements of [get_move] after the [try] block. *)
Definition after_loop (seed : nat) (legal_moves : list move) (l : locals)
    : M game move :=
  if move_eqb (chosen_move_in_time l) sentinel
  then random_choice seed legal_moves
  else ret (chosen_move_in_time l).

(** [CustomPlayer.get_move(self, game, time_left)].  The result carries the
    outcome of the call, the agent object as the call leaves it and the
    world.  [except SearchTimeout: pass] handles that exception only. *)
Definition get_move (fuel : nat) (self : CustomPlayer) (g : game)
    (clk : clock) (seed : nat) (w : world game)
    : option (res move * CustomPlayer * world game) :=
  let self := set_time_left self clk in
  match call_legal_moves g w with
  | (Raise e, w1) => Some (Raise e, self, w1)
  | (Ok legal_moves, w1) =>
      match legal_moves with
      | [] => Some (Ok sentinel, self, w1)
      | _ :: _ =>
          match deepening_loop fuel self g initial_locals w1 with
          | None => None
          | Some (SearchTimeout, l, w2) =>
              let (r, w3) := after_loop seed legal_moves l w2 in
              Some (r, self, w3)
          | Some (e, _, w2) => Some (Raise e, self, w2)
          end
      end
  end.

(** The world once [get_move] has enumerated the moves of the root. *)
Definition entered (g : game) (w : world game) : world game :=
  mkWorld (ticks w) (EvMoves g :: trace w).

(** The collaborator calls of a fixed-depth search: anything but a draw of
    the random generator, and a successor only by a legal move of the side
    to move in the state it is applied to. *)
Definition search_event (e : event game) : Prop :=
  match e with
  | EvRandom => False
  | EvForecast g mv => In mv (get_legal_moves g (active_player g))
  | _ => True
  end.

(** ** The search with the window and the cutoffs left out

    [_max_value] and [_min_value] as the source has them, minus [alpha],
    [beta], the two cutoff tests and the clock: the same leaves, the same
    enumeration order, the running best started at the infinity of the node
    kind with the sentinel as its move, and replaced only by a strictly
    better child.  Like the source it keeps the sentinel at a node none of
    whose children scores above minus infinity. *)

Fixpoint minimax_max_loop (child : game -> node) (g : game)
    (moves : list move) (value_of_game : sc) (best_move : move) : node :=
  match moves with
  | [] => (value_of_game, best_move)
  | mv :: rest =>
      let new_score := fst (child (forecast_move g mv)) in
      if sc_ltb value_of_game new_score
      then minimax_max_loop child g rest new_score mv
      else minimax_max_loop child g rest value_of_game best_move
  end.

Fixpoint minimax_min_loop (child : game -> node) (g : game)
    (moves : list move) (value_of_game : sc) (best_move : move) : node :=
  match moves with
  | [] => (value_of_game, best_move)
  | mv :: rest =>
      let new_score := fst (child (forecast_move g mv)) in
      if sc_ltb new_score value_of_game
      then minimax_min_loop child g rest new_score mv
      else minimax_min_loop child g rest value_of_game best_move
  end.

Fixpoint minimax_max (self : CustomPlayer) (d : nat) (g : game)
    {struct d} : node :=
  match d with
  | O => (score self g (ident self), get_player_location g (ident self))
  | S d' =>
      match get_legal_moves g (active_player g) with
      | [] => (score self g (ident self), sentinel)
      | (_ :: _) as legal_moves =>
          minimax_max_loop (minimax_min self d') g legal_moves NegInf sentinel
      end
  end

with minimax_min (self : CustomPlayer) (d : nat) (g : game)
    {struct d} : node :=
  match d with
  | O => (score self g (ident self), get_player_location g (ident self))
  | S d' =>
      match get_legal_moves g (active_player g) with
      | [] => (score self g (ident self), sentinel)
      | (_ :: _) as legal_moves =>
          minimax_min_loop (minimax_max self d') g legal_moves PosInf sentinel
      end
  end.

(** The move chosen by minimax at the root, a maximising node. *)
Definition minimax (self : CustomPlayer) (g : game) (d : nat) : move :=
  snd (minimax_max self d g).

(** ** Minimax in the words of the specification

    The reference of the pruning as the specification words it: an unpruned
    minimax of the given depth with the same evaluator and the same
    enumeration order, in which the first move encountered with the best
    score wins ties.  The score of a node is the maximum (or minimum) of
    the scores of its children; the move of the root is the first legal
    move whose child has that score. *)




End Agent.

Arguments CustomPlayer : clear implicits.


(** ** Synthetic game trees

    Small explicit games on which the statements are run: a position gives
    the side to move, a score for evaluators that read it off the position,
    the successors (each with the move that leads to it), the moves of the
    side not to move and the blank cells.  Player [true] is the agent. *)

Module Toy.

#[local] Set Warnings "-register-all".

Inductive tree : Type :=
| T (via : move) (to_move : bool) (val : sc) (kids : list tree)
    (idle_moves blanks : list move).

Definition via (t : tree) : move :=
  match t with T m _ _ _ _ _ => m end.
Definition to_move (t : tree) : bool :=
  match t with T _ p _ _ _ _ => p end.
Definition val (t : tree) : sc :=
  match t with T _ _ v _ _ _ => v end.
Definition kids (t : tree) : list tree :=
  match t with T _ _ _ k _ _ => k end.
Definition idle_moves (t : tree) : list move :=
  match t with T _ _ _ _ i _ => i end.
Definition blanks (t : tree) : list move :=
  match t with T _ _ _ _ _ b => b end.

Fixpoint lookup (mv : move) (k : list tree) (dflt : tree) : tree :=
  match k with
  | [] => dflt
  | t :: rest => if move_eqb (via t) mv then t else lookup mv rest dflt
  end.

Definition no_kids (t : tree) : bool :=
  match kids t with [] => true | _ :: _ => false end.

#[global] Instance toy_board : Board tree bool := {|
  active_player := to_move;
  get_legal_moves t p :=
    if Bool.eqb p (to_move t) then map via (kids t) else idle_moves t;
  forecast_move t mv := lookup mv (kids t) t;
  is_loser t p := Bool.eqb p (to_move t) && no_kids t;
  is_winner t p := negb (Bool.eqb p (to_move t)) && no_kids t;
  get_opponent _ p := negb p;
  get_blank_spaces := blanks;
  get_player_location _ _ := (0%Z, 0%Z)
|}.

Definition a : move := (0%Z, 1%Z).
Definition b : move := (1%Z, 0%Z).
Definition x : move := (2%Z, 2%Z).
Definition y : move := (3%Z, 3%Z).

Definition start : move := (0%Z, 0%Z).

Definition leaf (m : move) (v : Q) : tree := T m true (Fin v) [] [] [].

(** A two-ply tree with known scores: under [a] the opponent can hold the
    agent to 3, under [b] to 2; the 9 is never looked at. *)
Definition scored : tree :=
  T start true NegInf
    [ T a false NegInf [leaf x 3; leaf y 5] [] [];
      T b false NegInf [leaf x 2; leaf y 9] [] [] ]
    [] [].

(** A position in which every move of the agent lets the opponent leave it
    without a move. *)
Definition stuck (m : move) : tree := T m true NegInf [] [] [].
Definition trapped : tree :=
  T start true NegInf
    [ T a false NegInf [stuck x] [] [y];
      T b false NegInf [stuck y] [a] [y] ]
    [] [x; y].

(** A position in which the opponent is to move and cannot. *)
Definition opponent_stuck : tree := T start false NegInf [] [a] [].

Definition steady : clock := fun _ => 100%Q.
Definition expired : clock := fun _ => 0%Q.
(** Ten readings above the threshold, then none. *)
Definition ten_reads : clock := fun i => if (i <? 10)%nat then 100%Q else 0%Q.
(** [k] readings above the threshold, then none. *)
Definition reads (k : nat) : clock :=
  fun i => if (i <? k)%nat then 100%Q else 0%Q.

(** An agent whose evaluator reads the score off the position. *)
Definition reader (c : clock) : CustomPlayer tree bool :=
  {| ident := true;
     score := fun t _ => val t;
     time_left := Some c;
     TIMER_THRESHOLD := 1%Q |}.

(** The agent as its constructor builds it. *)
Definition agent : CustomPlayer tree bool :=
  CustomPlayer_init true (@None nat) 1%Q.

Definition w0 : world tree := mkWorld 0 [].

End Toy.

(** * Properties *)

(** ** The order on scores *)

Lemma sc_leb_Fin_true (x y : Q) : sc_leb (Fin x) (Fin y) = true <-> (x <= y)%Q.
Proof. simpl. apply Qle_bool_iff. Qed.

Lemma sc_leb_Fin_false (x y : Q) : sc_leb (Fin x) (Fin y) = false <-> (y < x)%Q.
Proof.
  simpl. split; intro H.
  - apply Qnot_le_lt. intro L. apply Qle_bool_iff in L. congruence.
  - destruct (Qle_bool x y) eqn:E; [|reflexivity].
    apply Qle_bool_iff in E. lra.
Qed.

(** Decides a goal about the order of scores from order hypotheses: every
    score in sight is split into its three shapes and the finite cases go to
    linear arithmetic. *)
Ltac sc_norm :=
  unfold slt, sle, sc_max, sc_min, sc_ltb in *;
  repeat match goal with
         | x : sc |- _ => destruct x
         end;
  simpl sc_leb in *; simpl negb in *;
  repeat match goal with
         | H : negb _ = true |- _ => apply negb_true_iff in H
         | H : negb _ = false |- _ => apply negb_false_iff in H
         | |- negb _ = true => apply negb_true_iff
         | |- negb _ = false => apply negb_false_iff
         end.

Ltac sc_order :=
  sc_norm;
  try discriminate; try reflexivity; try tauto;
  repeat match goal with
         | H : Qle_bool _ _ = true |- _ => apply Qle_bool_iff in H
         | H : Qle_bool _ _ = false |- _ =>
             apply (proj1 (sc_leb_Fin_false _ _)) in H
         end;
  try match goal with
      | |- Qle_bool _ _ = true => apply Qle_bool_iff
      | |- Qle_bool _ _ = false => apply (proj2 (sc_leb_Fin_false _ _))
      end;
  try lra.

Lemma sle_refl (a : sc) : sle a a.
Proof. sc_order. Qed.

Lemma sle_trans (a b c : sc) : sle a b -> sle b c -> sle a c.
Proof. intros H1 H2. sc_order. Qed.

Lemma sle_total (a b : sc) : sle a b \/ sle b a.
Proof.
  destruct (sc_leb a b) eqn:E; [left; exact E|right].
  sc_order.
Qed.

Lemma sc_ltb_false_sle (a b : sc) : sc_ltb a b = false <-> sle b a.
Proof. unfold sc_ltb, sle. rewrite negb_false_iff. tauto. Qed.

Lemma sc_leb_false_slt (a b : sc) : sc_leb a b = false <-> slt b a.
Proof. unfold slt, sc_ltb. rewrite negb_true_iff. tauto. Qed.

Lemma slt_sle (a b : sc) : slt a b -> sle a b.
Proof. intros H. sc_order. Qed.

Lemma slt_not_sle (a b : sc) : slt a b -> sle b a -> False.
Proof. unfold slt, sle, sc_ltb. intros H1 H2. rewrite H2 in H1. discriminate. Qed.

Lemma slt_sle_trans (a b c : sc) : slt a b -> sle b c -> slt a c.
Proof. intros H1 H2. sc_order. Qed.

Lemma sle_slt_trans (a b c : sc) : sle a b -> slt b c -> slt a c.
Proof. intros H1 H2. sc_order. Qed.

Lemma sle_PosInf (a : sc) : sle a PosInf.
Proof. sc_order. Qed.

Lemma sle_NegInf (a : sc) : sle NegInf a.
Proof. sc_order. Qed.


Lemma sc_equiv_iff (a b : sc) : sc_equiv a b <-> sle a b /\ sle b a.
Proof. unfold sc_equiv, sle. apply andb_true_iff. Qed.

(** Scores form a total preorder; [ScTac.order] closes goals that follow
    from order hypotheses by transitivity. *)
Module ScOrd <: TotalOrder.

Definition t : Type := sc.
Definition eq : sc -> sc -> Prop := sc_equiv.
Definition lt : sc -> sc -> Prop := slt.
Definition le : sc -> sc -> Prop := sle.

#[global] Instance eq_equiv : Equivalence eq.
Proof.
  split.
  - intros a. apply sc_equiv_iff. split; apply sle_refl.
  - intros a b H. apply sc_equiv_iff in H. apply sc_equiv_iff. tauto.
  - intros a b c H1 H2. apply sc_equiv_iff in H1, H2. apply sc_equiv_iff.
    destruct H1, H2. split; eapply sle_trans; eassumption.
Qed.

#[global] Instance lt_strorder : StrictOrder lt.
Proof.
  split.
  - intros a H. eapply slt_not_sle; [exact H|apply sle_refl].
  - intros a b c H1 H2. eapply slt_sle_trans; [exact H1|].
    apply slt_sle. exact H2.
Qed.

#[global] Instance lt_compat : Proper (eq ==> eq ==> iff) lt.
Proof.
  intros a a' Ha b b' Hb. apply sc_equiv_iff in Ha, Hb.
  destruct Ha as [Ha1 Ha2], Hb as [Hb1 Hb2]. split; intro H.
  - eapply sle_slt_trans; [exact Ha2|].
    eapply slt_sle_trans; [exact H|exact Hb1].
  - eapply sle_slt_trans; [exact Ha1|].
    eapply slt_sle_trans; [exact H|exact Hb2].
Qed.

Lemma le_lteq (x y : sc) : le x y <-> lt x y \/ eq x y.
Proof.
  unfold le, lt, eq. rewrite sc_equiv_iff. split.
  - intros H. destruct (sc_leb y x) eqn:E.
    + right. split; assumption.
    + left. apply sc_leb_false_slt. exact E.
  - intros [H|[H _]]; [apply slt_sle|]; exact H.
Qed.

Lemma lt_total (x y : sc) : lt x y \/ eq x y \/ lt y x.
Proof.
  unfold lt, eq. rewrite sc_equiv_iff.
  destruct (sc_leb x y) eqn:E1; destruct (sc_leb y x) eqn:E2.
  - right. left. split; assumption.
  - left. apply sc_leb_false_slt. exact E2.
  - right. right. apply sc_leb_false_slt. exact E1.
  - exfalso. destruct (sle_total x y) as [H|H]; unfold sle in H; congruence.
Qed.

End ScOrd.

Module ScTac := MakeOrderTac ScOrd ScOrd.

(** Turns the boolean tests of the code into order facts. *)
Ltac sc_prop :=
  repeat match goal with
         | H : sc_ltb ?a ?b = true |- _ => change (slt a b) in H
         | H : sc_ltb ?a ?b = false |- _ => apply sc_ltb_false_sle in H
         | H : sc_leb ?a ?b = true |- _ => change (sle a b) in H
         | H : sc_leb ?a ?b = false |- _ => apply sc_leb_false_slt in H
         | |- sc_ltb ?a ?b = true => change (slt a b)
         | |- sc_ltb ?a ?b = false => apply sc_ltb_false_sle
         | |- sc_leb ?a ?b = true => change (sle a b)
         | |- sc_leb ?a ?b = false => apply sc_leb_false_slt
         end.

Ltac sc_ord := sc_prop; ScTac.order.

Lemma sc_ord_example (a b c d : sc) :
  sc_ltb a b = true -> sc_leb c b = false -> sc_ltb d c = false ->
  sc_leb d a = false.
Proof. intros H1 H2 H3. sc_ord. Qed.

(** ** Running a computation of the monad *)

Section MonadFacts.

Context {game : Type}.

Lemma bind_Ok {A C : Type} (m : M game A) (f : A -> M game C)
    (w w' : world game) (c : C) :
  bind m f w = (Ok c, w') ->
  exists a w1, m w = (Ok a, w1) /\ f a w1 = (Ok c, w').
Proof.
  unfold bind. destruct (m w) as [[a|e] w1]; intro H.
  - exists a, w1. split; [reflexivity|exact H].
  - discriminate.
Qed.

Lemma bind_Raise {A C : Type} (m : M game A) (f : A -> M game C)
    (w w' : world game) (e : exn) :
  bind m f w = (Raise e, w') ->
  m w = (Raise e, w') \/
  exists a w1, m w = (Ok a, w1) /\ f a w1 = (Raise e, w').
Proof.
  unfold bind. destruct (m w) as [[a|e0] w1]; intro H.
  - right. exists a, w1. split; [reflexivity|exact H].
  - left. inversion H. reflexivity.
Qed.

End MonadFacts.

Tactic Notation "inv_bind" hyp(H) "as" ident(a) ident(w) ident(E) :=
  apply bind_Ok in H; destruct H as (a & w & E & H); cbv beta zeta in H.

Section SearchFacts.

Context {game player : Type} {B : Board game player}.

Implicit Types (self : CustomPlayer game player) (g : game) (w : world game).

Lemma call_forecast_run g mv w :
  call_forecast g mv w
  = (Ok (forecast_move g mv),
     mkWorld (ticks w) (EvForecast g mv :: trace w)).
Proof. reflexivity. Qed.

Lemma call_legal_moves_run g w :
  call_legal_moves g w
  = (Ok (get_legal_moves g (active_player g)),
     mkWorld (ticks w) (EvMoves g :: trace w)).
Proof. reflexivity. Qed.

Lemma call_score_run self g w :
  call_score self g w
  = (Ok (score self g (ident self)),
     mkWorld (ticks w) (EvScore g :: trace w)).
Proof. reflexivity. Qed.

Lemma depth_leaf_run self g w :
  depth_leaf self g w
  = (Ok (score self g (ident self), get_player_location g (ident self)),
     mkWorld (ticks w) (EvLocation g :: EvScore g :: trace w)).
Proof. reflexivity. Qed.

Lemma stuck_leaf_run self g w :
  stuck_leaf self g w
  = (Ok (score self g (ident self), sentinel),
     mkWorld (ticks w) (EvScore g :: trace w)).
Proof. reflexivity. Qed.

(** The two node kinds unfolded one level. *)
Lemma max_value_unfold self d g alpha beta :
  _max_value self d g alpha beta
  = (check_time self ;;;
     match d with
     | O => depth_leaf self g
     | S d' =>
         legal_moves <- call_legal_moves g ;;
         match legal_moves with
         | [] => stuck_leaf self g
         | _ :: _ =>
             max_loop (_min_value self d') g legal_moves NegInf sentinel
                      alpha beta
         end
     end).
Proof. destruct d; reflexivity. Qed.

Lemma min_value_unfold self d g alpha beta :
  _min_value self d g alpha beta
  = (check_time self ;;;
     match d with
     | O => depth_leaf self g
     | S d' =>
         legal_moves <- call_legal_moves g ;;
         match legal_moves with
         | [] => stuck_leaf self g
         | _ :: _ =>
             min_loop (_max_value self d') g legal_moves PosInf sentinel
                      alpha beta
         end
     end).
Proof. destruct d; reflexivity. Qed.

Lemma max_loop_cons (child : game -> sc -> sc -> M game node) g mv rest
    (v : sc) (bm : move) (a b : sc) :
  max_loop child g (mv :: rest) v bm a b
  = (g' <- call_forecast g mv ;;
     r <- child g' a b ;;
     if sc_leb b (fst r)
     then ret (if sc_ltb v (fst r) then fst r else v,
               if sc_ltb v (fst r) then mv else bm)
     else max_loop child g rest
            (if sc_ltb v (fst r) then fst r else v)
            (if sc_ltb v (fst r) then mv else bm)
            (sc_max a (fst r)) b).
Proof. reflexivity. Qed.

Lemma min_loop_cons (child : game -> sc -> sc -> M game node) g mv rest
    (v : sc) (bm : move) (a b : sc) :
  min_loop child g (mv :: rest) v bm a b
  = (g' <- call_forecast g mv ;;
     r <- child g' a b ;;
     if sc_leb (fst r) a
     then ret (if sc_ltb (fst r) v then fst r else v,
               if sc_ltb (fst r) v then mv else bm)
     else min_loop child g rest
            (if sc_ltb (fst r) v then fst r else v)
            (if sc_ltb (fst r) v then mv else bm)
            a (sc_min b (fst r))).
Proof. reflexivity. Qed.

Lemma minimax_max_stuck self d g :
  get_legal_moves g (active_player g) = [] ->
  minimax_max self (S d) g = (score self g (ident self), sentinel).
Proof. intros H. simpl. rewrite H. reflexivity. Qed.

Lemma minimax_min_stuck self d g :
  get_legal_moves g (active_player g) = [] ->
  minimax_min self (S d) g = (score self g (ident self), sentinel).
Proof. intros H. simpl. rewrite H. reflexivity. Qed.

Lemma minimax_max_moves self d g mv rest :
  get_legal_moves g (active_player g) = mv :: rest ->
  minimax_max self (S d) g
  = minimax_max_loop (minimax_min self d) g (mv :: rest) NegInf sentinel.
Proof. intros H. simpl minimax_max. rewrite H. reflexivity. Qed.

Lemma minimax_min_moves self d g mv rest :
  get_legal_moves g (active_player g) = mv :: rest ->
  minimax_min self (S d) g
  = minimax_min_loop (minimax_max self d) g (mv :: rest) PosInf sentinel.
Proof. intros H. simpl minimax_min. rewrite H. reflexivity. Qed.

End SearchFacts.


(** ** Pruning against plain minimax *)


Lemma bounds_same (alpha beta v : sc) : bounds alpha beta v v.
Proof. unfold bounds. repeat split; intros; apply sle_refl. Qed.

Section Pruning.

Context {game player : Type} {B : Board game player}.

Implicit Types (self : CustomPlayer game player) (g : game) (w : world game).

Variable child : game -> sc -> sc -> M game node.
Variable mchild : game -> node.

Hypothesis child_bounds :
  forall g a b w r w',
    slt a b -> child g a b w = (Ok r, w') ->
    bounds a b (fst r) (fst (mchild g)).

Lemma minimax_max_loop_ge g moves M bm :
  sle M (fst (minimax_max_loop mchild g moves M bm)).
Proof.
  revert M bm. induction moves as [|mv rest IH]; intros M bm; simpl.
  - apply sle_refl.
  - destruct (sc_ltb M (fst (mchild (forecast_move g mv)))) eqn:E.
    + eapply sle_trans; [|apply IH]. apply slt_sle. exact E.
    + apply IH.
Qed.

Lemma minimax_max_loop_ge_child g moves M bm mv :
  sle (fst (mchild (forecast_move g mv)))
      (fst (minimax_max_loop mchild g (mv :: moves) M bm)).
Proof.
  simpl. destruct (sc_ltb M (fst (mchild (forecast_move g mv)))) eqn:E.
  - apply minimax_max_loop_ge.
  - eapply sle_trans; [|apply minimax_max_loop_ge].
    apply sc_ltb_false_sle. exact E.
Qed.

Lemma minimax_min_loop_le g moves M bm :
  sle (fst (minimax_min_loop mchild g moves M bm)) M.
Proof.
  revert M bm. induction moves as [|mv rest IH]; intros M bm; simpl.
  - apply sle_refl.
  - destruct (sc_ltb (fst (mchild (forecast_move g mv))) M) eqn:E.
    + eapply sle_trans; [apply IH|]. apply slt_sle. exact E.
    + apply IH.
Qed.

Lemma minimax_min_loop_le_child g moves M bm mv :
  sle (fst (minimax_min_loop mchild g (mv :: moves) M bm))
      (fst (mchild (forecast_move g mv))).
Proof.
  simpl. destruct (sc_ltb (fst (mchild (forecast_move g mv))) M) eqn:E.
  - apply minimax_min_loop_le.
  - eapply sle_trans; [apply minimax_min_loop_le|].
    apply sc_ltb_false_sle. exact E.
Qed.

(** The loop of a maximising node.  [m] is the running best of the pruned
    loop, [M] that of plain minimax, [a] the lower end of the window as the
    loop has raised it: the larger of [alpha] and [m]. *)
Lemma max_loop_bounds g alpha beta moves :
  slt alpha beta ->
  forall m bm a M bM w r w',
    sle alpha a -> sle m a -> (sle a alpha \/ sle a m) ->
    sle M m -> (slt alpha m -> sle m M) -> slt m beta ->
    max_loop child g moves m bm a beta w = (Ok r, w') ->
    bounds alpha beta (fst r) (fst (minimax_max_loop mchild g moves M bM)).
Proof.
  intros Hab. induction moves as [|mv rest IH];
    intros m bm a M bM w r w' Ha1 Ha2 Ha3 HMm HmM Hmb Hrun.
  - simpl in Hrun. unfold ret in Hrun. injection Hrun as Hr Hw. subst r w'.
    simpl. unfold bounds. repeat split; intros; auto.
    exfalso. clear child_bounds. sc_ord.
  - rewrite max_loop_cons in Hrun.
    inv_bind Hrun as g' w1 E. rewrite call_forecast_run in E.
    injection E as Hg' Hw1. subst g' w1.
    inv_bind Hrun as r1 w2 E.
    assert (Hwin : slt a beta) by (clear - Hab Ha3 Hmb; destruct Ha3; sc_ord).
    pose proof (child_bounds Hwin E) as (Hc1 & Hc2 & Hc3). clear E.
    remember (fst r1) as s eqn:Hs. clear Hs.
    remember (fst (mchild (forecast_move g mv))) as vi eqn:Hvi.
    destruct (sc_leb beta s) eqn:Hcut.
    + (* beta cutoff *)
      pose proof (minimax_max_loop_ge_child g rest M bM mv) as Hge.
      rewrite <- Hvi in Hge. specialize (Hc2 Hcut).
      remember (fst (minimax_max_loop mchild g (mv :: rest) M bM)) as V.
      unfold ret in Hrun. injection Hrun as Hr Hw. subst r w'. simpl fst.
      clear - Hab Hmb Hcut Hc2 Hge.
      assert (Hms : sc_ltb m s = true) by sc_ord. rewrite Hms.
      unfold bounds. repeat split; intros; try split; sc_ord.
    + (* next sibling *)
      simpl minimax_max_loop. rewrite <- Hvi. clear Hvi Hc2.
      assert (Hvs : sle vi s).
      { destruct (sc_leb s a) eqn:Hsa.
        - apply Hc1. exact Hsa.
        - apply Hc3; clear - Hsa Hcut; sc_ord. }
      assert (Hsv : slt a s -> sle s vi).
      { intros Has. apply Hc3; [exact Has|clear - Hcut; sc_ord]. }
      clear Hc1 Hc3. unfold sc_max in Hrun.
      destruct (sc_ltb M vi) eqn:HMv; destruct (sc_ltb m s) eqn:Hms;
        destruct (sc_ltb a s) eqn:Has;
        (eapply IH; [ | | | | | | exact Hrun]);
        clear Hrun IH child_bounds; try specialize (Hsv Has);
        destruct Ha3;
        solve [ sc_ord | left; sc_ord | right; sc_ord
              | intros Hx; try specialize (HmM Hx); sc_ord ].
Qed.

(** The loop of a minimising node, the mirror image: [b] is the upper end
    of the window as the loop has lowered it. *)
Lemma min_loop_bounds g alpha beta moves :
  slt alpha beta ->
  forall m bm b M bM w r w',
    sle b beta -> sle b m -> (sle beta b \/ sle m b) ->
    sle m M -> (slt m beta -> sle M m) -> slt alpha m ->
    min_loop child g moves m bm alpha b w = (Ok r, w') ->
    bounds alpha beta (fst r) (fst (minimax_min_loop mchild g moves M bM)).
Proof.
  intros Hab. induction moves as [|mv rest IH];
    intros m bm b M bM w r w' Hb1 Hb2 Hb3 HmM HMm Ham Hrun.
  - simpl in Hrun. unfold ret in Hrun. injection Hrun as Hr Hw. subst r w'.
    simpl. unfold bounds. repeat split; intros; auto.
    exfalso. clear child_bounds. sc_ord.
  - rewrite min_loop_cons in Hrun.
    inv_bind Hrun as g' w1 E. rewrite call_forecast_run in E.
    injection E as Hg' Hw1. subst g' w1.
    inv_bind Hrun as r1 w2 E.
    assert (Hwin : slt alpha b) by (clear - Hab Hb3 Ham; destruct Hb3; sc_ord).
    pose proof (child_bounds Hwin E) as (Hc1 & Hc2 & Hc3). clear E.
    remember (fst r1) as s eqn:Hs. clear Hs.
    remember (fst (mchild (forecast_move g mv))) as vi eqn:Hvi.
    destruct (sc_leb s alpha) eqn:Hcut.
    + (* alpha cutoff *)
      pose proof (minimax_min_loop_le_child g rest M bM mv) as Hle.
      rewrite <- Hvi in Hle. specialize (Hc1 Hcut).
      remember (fst (minimax_min_loop mchild g (mv :: rest) M bM)) as V.
      unfold ret in Hrun. injection Hrun as Hr Hw. subst r w'. simpl fst.
      clear - Hab Ham Hcut Hc1 Hle.
      assert (Hsm : sc_ltb s m = true) by sc_ord. rewrite Hsm.
      unfold bounds. repeat split; intros; try split; sc_ord.
    + (* next sibling *)
      simpl minimax_min_loop. rewrite <- Hvi. clear Hvi Hc1.
      assert (Hsv : sle s vi).
      { destruct (sc_leb b s) eqn:Hbs.
        - apply Hc2. exact Hbs.
        - apply Hc3; clear - Hbs Hcut; sc_ord. }
      assert (Hvs : slt s b -> sle vi s).
      { intros Hsb. apply Hc3; [clear - Hcut; sc_ord|exact Hsb]. }
      clear Hc2 Hc3. unfold sc_min in Hrun.
      destruct (sc_ltb vi M) eqn:HvM; destruct (sc_ltb s m) eqn:Hsm;
        destruct (sc_ltb s b) eqn:Hsb;
        (eapply IH; [ | | | | | | exact Hrun]);
        clear Hrun IH child_bounds; try specialize (Hvs Hsb);
        destruct Hb3;
        solve [ sc_ord | left; sc_ord | right; sc_ord
              | intros Hx; try specialize (HMm Hx); sc_ord ].
Qed.

(** At the root the window is [(-inf, +inf)] and the lower end follows the
    running best, so the pruned loop and plain minimax replace their best
    move at the same children. *)
Lemma minimax_max_loop_top g moves M bm :
  sle PosInf M -> snd (minimax_max_loop mchild g moves M bm) = bm.
Proof.
  revert M bm. induction moves as [|mv rest IH]; intros M bm HM; simpl.
  - reflexivity.
  - destruct (sc_ltb M (fst (mchild (forecast_move g mv)))) eqn:E.
    + exfalso. pose proof (sle_PosInf (fst (mchild (forecast_move g mv)))).
      clear IH child_bounds. sc_ord.
    + apply IH. exact HM.
Qed.

Lemma max_loop_root_move g moves :
  forall m bm a M w r w',
    sle m M -> sle M m -> sle a m -> sle m a -> slt m PosInf ->
    max_loop child g moves m bm a PosInf w = (Ok r, w') ->
    snd r = snd (minimax_max_loop mchild g moves M bm).
Proof.
  induction moves as [|mv rest IH];
    intros m bm a M w r w' HmM HMm Ham Hma Hm Hrun.
  - simpl in Hrun. unfold ret in Hrun. injection Hrun as Hr Hw. subst r w'.
    reflexivity.
  - rewrite max_loop_cons in Hrun.
    inv_bind Hrun as g' w1 E. rewrite call_forecast_run in E.
    injection E as Hg' Hw1. subst g' w1.
    inv_bind Hrun as r1 w2 E.
    assert (Hwin : slt a PosInf) by (clear - Ham Hm; sc_ord).
    pose proof (child_bounds Hwin E) as (Hc1 & Hc2 & Hc3). clear E.
    remember (fst r1) as s eqn:Hs. clear Hs.
    simpl minimax_max_loop.
    remember (fst (mchild (forecast_move g mv))) as vi eqn:Hvi. clear Hvi.
    destruct (sc_leb PosInf s) eqn:Hcut.
    + (* the child scored +inf: cutoff *)
      specialize (Hc2 Hcut).
      assert (Hms : sc_ltb m s = true) by (clear - Hm Hcut; sc_ord).
      assert (HMv : sc_ltb M vi = true) by (clear - Hm Hcut Hc2 HMm; sc_ord).
      rewrite Hms in Hrun. rewrite HMv.
      unfold ret in Hrun. injection Hrun as Hr Hw. subst r w'. simpl snd.
      symmetry. apply minimax_max_loop_top. clear - Hcut Hc2. sc_ord.
    + unfold sc_max in Hrun. clear Hc2. destruct (sc_ltb m s) eqn:Hms.
      * (* a strictly better child *)
        assert (Has : sc_ltb a s = true) by (clear - Ham Hms; sc_ord).
        destruct Hc3 as [Hvs Hsv]; [exact Has|clear - Hcut; sc_ord|].
        assert (HMv : sc_ltb M vi = true) by (clear - HMm Hms Hsv; sc_ord).
        rewrite Has in Hrun. rewrite HMv.
        eapply IH; [ | | | | | exact Hrun];
          clear - Hvs Hsv Hcut; sc_ord.
      * (* no better: both keep their best move *)
        assert (Has : sc_ltb a s = false) by (clear - Hma Hms; sc_ord).
        assert (Hvs : sle vi s) by (apply Hc1; clear - Has; sc_ord).
        assert (HMv : sc_ltb M vi = false) by (clear - HmM Hms Hvs; sc_ord).
        rewrite Has in Hrun. rewrite HMv.
        eapply IH; [ | | | | | exact Hrun]; assumption.
Qed.

End Pruning.

Section PruningDepth.

Context {game player : Type} {B : Board game player}.

Implicit Types (self : CustomPlayer game player) (g : game) (w : world game).

(** Both node kinds keep the promise [bounds] at every depth. *)
Lemma search_bounds self d :
  (forall g alpha beta w r w',
      slt alpha beta ->
      _max_value self d g alpha beta w = (Ok r, w') ->
      bounds alpha beta (fst r) (fst (minimax_max self d g))) /\
  (forall g alpha beta w r w',
      slt alpha beta ->
      _min_value self d g alpha beta w = (Ok r, w') ->
      bounds alpha beta (fst r) (fst (minimax_min self d g))).
Proof.
  induction d as [|d [IHmax IHmin]]; split;
    intros g alpha beta w r w' Hab Hrun;
    (rewrite max_value_unfold in Hrun || rewrite min_value_unfold in Hrun);
    inv_bind Hrun as u w1 E; clear E.
  - rewrite depth_leaf_run in Hrun. injection Hrun as Hr Hw. subst r.
    apply bounds_same.
  - rewrite depth_leaf_run in Hrun. injection Hrun as Hr Hw. subst r.
    apply bounds_same.
  - inv_bind Hrun as lm w2 E. rewrite call_legal_moves_run in E.
    injection E as Hlm Hw2.
    destruct lm as [|mv rest].
    + rewrite stuck_leaf_run in Hrun. injection Hrun as Hr Hw. subst r.
      rewrite (minimax_max_stuck _ _ _ Hlm). apply bounds_same.
    + rewrite (minimax_max_moves _ _ _ Hlm).
      eapply (@max_loop_bounds _ _ _ (_min_value self d) (minimax_min self d) IHmin); [ exact Hab | apply sle_refl | apply sle_NegInf
        | left; apply sle_refl | apply sle_refl | intros; apply sle_refl
        | pose proof (sle_NegInf alpha); clear - Hab H; sc_ord
        | exact Hrun ].
  - inv_bind Hrun as lm w2 E. rewrite call_legal_moves_run in E.
    injection E as Hlm Hw2.
    destruct lm as [|mv rest].
    + rewrite stuck_leaf_run in Hrun. injection Hrun as Hr Hw. subst r.
      rewrite (minimax_min_stuck _ _ _ Hlm). apply bounds_same.
    + rewrite (minimax_min_moves _ _ _ Hlm).
      eapply (@min_loop_bounds _ _ _ (_max_value self d) (minimax_max self d) IHmax); [ exact Hab | apply sle_refl | apply sle_PosInf
        | left; apply sle_refl | apply sle_refl | intros; apply sle_refl
        | pose proof (sle_PosInf beta); clear - Hab H; sc_ord
        | exact Hrun ].
Qed.

(** The root of a full-window search against the search without cutoffs. *)
Lemma alphabeta_run_minimax self g d w mv w' :
  alphabeta self g (S d) NegInf PosInf w = (Ok mv, w') ->
  mv = minimax self g (S d).
Proof.
  intros Hrun. unfold alphabeta in Hrun.
  inv_bind Hrun as u w1 E. clear E. inv_bind Hrun as r w2 E.
  unfold ret in Hrun. injection Hrun as Hmv Hw. subst mv w'.
  unfold minimax.
  rewrite max_value_unfold in E. inv_bind E as u' w3 E'. clear E'.
  inv_bind E as lm w4 E'. rewrite call_legal_moves_run in E'.
  injection E' as Hlm Hw4.
  destruct lm as [|m0 rest].
  - rewrite stuck_leaf_run in E. injection E as Hr Hw. subst r.
    rewrite (minimax_max_stuck _ _ _ Hlm). reflexivity.
  - rewrite (minimax_max_moves _ _ _ Hlm).
    eapply (@max_loop_root_move _ _ _ (_min_value self d) (minimax_min self d)
              (proj2 (search_bounds self d)));
      [ | | | | |exact E]; first [apply sle_refl | reflexivity].
Qed.

End PruningDepth.

(** ** What a run of the search does to the clock and the trace *)


Section Soundness.

Context {game player : Type} {B : Board game player}.

Implicit Types (self : CustomPlayer game player) (g : game) (w : world game).

Variable c : clock.
Variable thr : Q.

Lemma sound_ret {A : Type} (a : A) : sound c thr (@ret game A a).
Proof.
  intros w. simpl. split; [lia|]. split; [exists []; reflexivity|].
  intros i Hi. lia.
Qed.

Lemma sound_emit (e : event game) : sound c thr (emit e).
Proof.
  intros w. simpl. split; [lia|]. split; [exists [e]; reflexivity|].
  intros i Hi. lia.
Qed.

Lemma sound_bind {A C : Type} (m : M game A) (f : A -> M game C) :
  sound c thr m -> (forall a, sound c thr (f a)) -> sound c thr (bind m f).
Proof.
  intros Hm Hf w. unfold bind. specialize (Hm w).
  destruct (m w) as [[a|e] w1].
  - destruct Hm as (Ht & [evs Hevs] & Hr). specialize (Hf a w1).
    destruct (f a w1) as [[b|e] w2].
    + destruct Hf as (Ht' & [evs' Hevs'] & Hr'). split; [lia|]. split.
      * exists (evs' ++ evs). rewrite Hevs', Hevs. apply app_assoc.
      * intros i Hi. destruct (Nat.lt_ge_cases i (ticks w1)).
        -- apply Hr. lia.
        -- apply Hr'. lia.
    + destruct Hf as (He & Ht' & [evs' Hevs'] & Hlast & Hr').
      split; [exact He|]. split; [lia|]. split.
      * exists (evs' ++ evs). rewrite Hevs', Hevs. apply app_assoc.
      * split; [exact Hlast|]. intros i Hi.
        destruct (Nat.lt_ge_cases i (ticks w1)).
        -- apply Hr. lia.
        -- apply Hr'. lia.
  - exact Hm.
Qed.

Lemma check_time_run self w :
  time_left self = Some c ->
  check_time self w
  = (if Qltb (c (ticks w)) (TIMER_THRESHOLD self)
     then Raise SearchTimeout else Ok tt,
     mkWorld (S (ticks w)) (EvClock :: trace w)).
Proof.
  intros H. unfold check_time, read_clock, bind. rewrite H.
  destruct (Qltb (c (ticks w)) (TIMER_THRESHOLD self)); reflexivity.
Qed.

Lemma check_time_unset self w :
  time_left self = None -> check_time self w = (Raise TypeError, w).
Proof. intros H. unfold check_time, read_clock, bind. rewrite H. reflexivity. Qed.

Section WithAgent.

Variable self : CustomPlayer game player.
Hypothesis Hclock : time_left self = Some c.
Hypothesis Hthr : TIMER_THRESHOLD self = thr.

Lemma sound_check_time : sound c thr (check_time self).
Proof.
  intros w. rewrite (check_time_run self w Hclock), Hthr.
  destruct (Qltb (c (ticks w)) thr) eqn:E; simpl.
  - split; [reflexivity|]. split; [lia|].
    split; [exists [EvClock]; reflexivity|]. split; [exact E|].
    intros i Hi. lia.
  - split; [lia|]. split; [exists [EvClock]; reflexivity|].
    intros i Hi. assert (i = ticks w) by lia. subst i. exact E.
Qed.

Lemma sound_call_score g : sound c thr (call_score self g).
Proof. apply sound_bind; [apply sound_emit|intros; apply sound_ret]. Qed.

Lemma sound_call_legal_moves g : sound c thr (call_legal_moves g).
Proof. apply sound_bind; [apply sound_emit|intros; apply sound_ret]. Qed.

Lemma sound_call_forecast g mv : sound c thr (call_forecast g mv).
Proof. apply sound_bind; [apply sound_emit|intros; apply sound_ret]. Qed.

Lemma sound_call_location g : sound c thr (call_location self g).
Proof. apply sound_bind; [apply sound_emit|intros; apply sound_ret]. Qed.

Lemma sound_random_choice seed (l : list move) :
  sound c thr (@random_choice game seed l).
Proof. apply sound_bind; [apply sound_emit|intros; apply sound_ret]. Qed.

Lemma sound_depth_leaf g : sound c thr (depth_leaf self g).
Proof.
  apply sound_bind; [apply sound_call_score|intros s].
  apply sound_bind; [apply sound_call_location|intros l]. apply sound_ret.
Qed.

Lemma sound_stuck_leaf g : sound c thr (stuck_leaf self g).
Proof.
  apply sound_bind; [apply sound_call_score|intros s]. apply sound_ret.
Qed.

Lemma sound_max_loop (child : game -> sc -> sc -> M game node) g moves :
  (forall g' a b, sound c thr (child g' a b)) ->
  forall v bm a b, sound c thr (max_loop child g moves v bm a b).
Proof.
  intros Hchild. induction moves as [|mv rest IH]; intros v bm a b.
  - apply sound_ret.
  - rewrite max_loop_cons.
    apply sound_bind; [apply sound_call_forecast|intros g'].
    apply sound_bind; [apply Hchild|intros r].
    destruct (sc_leb b (fst r)); [apply sound_ret|apply IH].
Qed.

Lemma sound_min_loop (child : game -> sc -> sc -> M game node) g moves :
  (forall g' a b, sound c thr (child g' a b)) ->
  forall v bm a b, sound c thr (min_loop child g moves v bm a b).
Proof.
  intros Hchild. induction moves as [|mv rest IH]; intros v bm a b.
  - apply sound_ret.
  - rewrite min_loop_cons.
    apply sound_bind; [apply sound_call_forecast|intros g'].
    apply sound_bind; [apply Hchild|intros r].
    destruct (sc_leb (fst r) a); [apply sound_ret|apply IH].
Qed.

Lemma sound_search d :
  (forall g a b, sound c thr (_max_value self d g a b)) /\
  (forall g a b, sound c thr (_min_value self d g a b)).
Proof.
  induction d as [|d [IHmax IHmin]]; split; intros g a b;
    (rewrite max_value_unfold || rewrite min_value_unfold);
    (apply sound_bind; [apply sound_check_time|intros _]);
    try apply sound_depth_leaf;
    (apply sound_bind; [apply sound_call_legal_moves|intros lm]);
    (destruct lm; [apply sound_stuck_leaf|]).
  - apply sound_max_loop. exact IHmin.
  - apply sound_min_loop. exact IHmax.
Qed.

Lemma sound_alphabeta g d a b : sound c thr (alphabeta self g d a b).
Proof.
  unfold alphabeta. apply sound_bind; [apply sound_check_time|intros _].
  apply sound_bind; [apply (proj1 (sound_search d))|intros r].
  apply sound_ret.
Qed.

Lemma sound_loop_body g (l : locals) : sound c thr (loop_body self g l).
Proof.
  unfold loop_body. apply sound_bind; [apply sound_alphabeta|intros m].
  apply sound_ret.
Qed.

End WithAgent.

End Soundness.

(** ** The moves the root can return *)

Lemma move_eqb_eq (a b : move) : move_eqb a b = true <-> a = b.
Proof.
  destruct a as [a1 a2], b as [b1 b2]. unfold move_eqb. simpl.
  rewrite andb_true_iff, !Z.eqb_eq. split.
  - intros [-> ->]. reflexivity.
  - intros H. injection H as -> ->. split; reflexivity.
Qed.

Section RootMove.

Context {game player : Type} {B : Board game player}.

Implicit Types (self : CustomPlayer game player) (g : game) (w : world game).

Lemma max_loop_move_in (child : game -> sc -> sc -> M game node) g moves :
  forall v bm a b w r w',
    max_loop child g moves v bm a b w = (Ok r, w') ->
    snd r = bm \/ In (snd r) moves.
Proof.
  induction moves as [|mv rest IH]; intros v bm a b w r w' Hrun.
  - simpl in Hrun. unfold ret in Hrun. injection Hrun as Hr Hw. subst r.
    left. reflexivity.
  - rewrite max_loop_cons in Hrun.
    inv_bind Hrun as g' w1 E. clear E. inv_bind Hrun as r1 w2 E. clear E.
    destruct (sc_leb b (fst r1)).
    + unfold ret in Hrun. injection Hrun as Hr Hw. subst r. simpl.
      destruct (sc_ltb v (fst r1)); [right; left|left]; reflexivity.
    + apply IH in Hrun.
      destruct (sc_ltb v (fst r1)); destruct Hrun as [H|H]; simpl; auto.
Qed.

Lemma alphabeta_move_legal self g d a b w mv w' :
  (1 <= d)%nat ->
  alphabeta self g d a b w = (Ok mv, w') ->
  mv = sentinel \/ In mv (get_legal_moves g (active_player g)).
Proof.
  intros Hd Hrun. unfold alphabeta in Hrun.
  inv_bind Hrun as u w1 E. clear E. inv_bind Hrun as r w2 E.
  unfold ret in Hrun. injection Hrun as Hmv Hw. subst mv w'.
  destruct d as [|d]; [lia|].
  rewrite max_value_unfold in E. inv_bind E as u' w3 E'. clear E'.
  inv_bind E as lm w4 E'. rewrite call_legal_moves_run in E'.
  injection E' as Hlm Hw4. rewrite Hlm. destruct lm as [|m0 rest].
  - rewrite stuck_leaf_run in E. injection E as Hr Hw. subst r.
    left. reflexivity.
  - apply max_loop_move_in in E. exact E.
Qed.

Lemma random_choice_run seed (l : list move) w :
  @random_choice game seed l w
  = (Ok (nth (seed mod length l) l sentinel),
     mkWorld (ticks w) (EvRandom :: trace w)).
Proof. reflexivity. Qed.

Lemma random_choice_legal seed (l : list move) :
  l <> [] -> In (nth (seed mod length l) l sentinel) l.
Proof.
  intros H. apply nth_In. apply Nat.mod_upper_bound.
  destruct l; [congruence|simpl; lia].
Qed.

(** ** The iterations of the deepening loop *)

Lemma loop_body_Ok self g l w l' w' :
  loop_body self g l w = (Ok l', w') ->
  exists mv,
    alphabeta self g (depth l) NegInf PosInf w = (Ok mv, w') /\
    l' = {| depth := S (depth l); chosen_move_in_time := mv |}.
Proof.
  unfold loop_body. intros H. inv_bind H as mv w1 E.
  unfold ret in H. injection H as Hl Hw. subst l' w1.
  exists mv. split; [exact E|reflexivity].
Qed.

Lemma loop_body_Raise self g l w e w' :
  loop_body self g l w = (Raise e, w') ->
  alphabeta self g (depth l) NegInf PosInf w = (Raise e, w').
Proof.
  unfold loop_body. intros H. apply bind_Raise in H.
  destruct H as [H|(mv & w1 & _ & H)]; [exact H|discriminate].
Qed.

Lemma iterate_front n self g l w :
  iterate (S n) self g l w
  = match loop_body self g l w with
    | (Ok l1, w1) => iterate n self g l1 w1
    | (Raise _, _) => None
    end.
Proof.
  revert l w. induction n as [|n IH]; intros l w.
  - simpl. destruct (loop_body self g l w) as [[l1|e] w1]; reflexivity.
  - change (iterate (S (S n)) self g l w)
      with (match iterate (S n) self g l w with
            | Some (l1, w1) =>
                match loop_body self g l1 w1 with
                | (Ok l2, w2) => Some (l2, w2)
                | (Raise _, _) => None
                end
            | None => None
            end).
    rewrite IH. destruct (loop_body self g l w) as [[l1|e] w1];
      reflexivity.
Qed.

Lemma iterate_depth n self g l w l' w' :
  iterate n self g l w = Some (l', w') -> depth l' = (n + depth l)%nat.
Proof.
  revert l' w'. induction n as [|n IH]; intros l' w' H.
  - simpl in H. injection H as Hl Hw. subst l'. reflexivity.
  - simpl in H. destruct (iterate n self g l w) as [[l1 w1]|]; [|discriminate].
    destruct (loop_body self g l1 w1) as [[l2|e] w2] eqn:E; [|discriminate].
    injection H as Hl Hw. subst l2 w2.
    apply loop_body_Ok in E. destruct E as (mv & _ & ->). simpl.
    rewrite (IH l1 w1 eq_refl). reflexivity.
Qed.

(** The loop stops exactly when, after some number [n] of completed
    iterations, the next one raises. *)
Lemma deepening_loop_stops fuel self g l w e l' w' :
  deepening_loop fuel self g l w = Some (e, l', w') ->
  exists n w1,
    (n < fuel)%nat /\
    iterate n self g l w = Some (l', w1) /\
    loop_body self g l' w1 = (Raise e, w').
Proof.
  revert l w. induction fuel as [|fuel IH]; intros l w H; [discriminate|].
  simpl in H. destruct (loop_body self g l w) as [[l1|e1] w1] eqn:E.
  - apply IH in H. destruct H as (n & w2 & Hn & Hit & Hraise).
    exists (S n), w2. split; [lia|]. split; [|exact Hraise].
    rewrite iterate_front, E. exact Hit.
  - injection H as He Hl Hw. subst e1 l' w1.
    exists 0%nat, w. split; [lia|]. split; [reflexivity|exact E].
Qed.

Lemma deepening_loop_reaches n self g l w l' w1 e w' fuel :
  iterate n self g l w = Some (l', w1) ->
  loop_body self g l' w1 = (Raise e, w') ->
  (n < fuel)%nat ->
  deepening_loop fuel self g l w = Some (e, l', w').
Proof.
  revert l w fuel. induction n as [|n IH]; intros l w fuel Hit Hraise Hf.
  - simpl in Hit. injection Hit as Hl Hw. subst l' w1.
    destruct fuel as [|fuel]; [lia|]. simpl. rewrite Hraise. reflexivity.
  - rewrite iterate_front in Hit.
    destruct fuel as [|fuel]; [lia|]. simpl.
    destruct (loop_body self g l w) as [[l1|e1] w2]; [|discriminate].
    apply IH; [exact Hit|exact Hraise|lia].
Qed.

(** The loop is still running after [fuel] iterations exactly when all of
    them completed. *)
Lemma deepening_loop_running fuel self g l w :
  deepening_loop fuel self g l w = None <->
  exists l' w1, iterate fuel self g l w = Some (l', w1).
Proof.
  revert l w. induction fuel as [|fuel IH]; intros l w.
  - simpl. split; [intros _; exists l, w; reflexivity|reflexivity].
  - rewrite iterate_front. simpl.
    destruct (loop_body self g l w) as [[l1|e] w1].
    + apply IH.
    + split; [discriminate|intros (l' & w2 & H); discriminate].
Qed.

(** The recorded move is the sentinel or a legal move of the root. *)
Lemma iterate_chosen_legal n self g w l w' :
  iterate n self g initial_locals w = Some (l, w') ->
  chosen_move_in_time l = sentinel \/
  In (chosen_move_in_time l) (get_legal_moves g (active_player g)).
Proof.
  destruct n as [|n]; intros H.
  - simpl in H. injection H as Hl Hw. subst l. left. reflexivity.
  - simpl in H.
    destruct (iterate n self g initial_locals w) as [[l1 w1]|] eqn:Hit;
      [|discriminate].
    destruct (loop_body self g l1 w1) as [[l2|e] w2] eqn:E; [|discriminate].
    injection H as Hl Hw. subst l2 w2.
    apply iterate_depth in Hit. simpl in Hit.
    apply loop_body_Ok in E. destruct E as (mv & Hab & ->). simpl.
    eapply alphabeta_move_legal; [|exact Hab]. lia.
Qed.

End RootMove.

(** ** When the loop stops *)

Section Stopping.

Context {game player : Type} {B : Board game player}.

Variable self : CustomPlayer game player.
Variable c : clock.
Hypothesis Hclock : time_left self = Some c.

Implicit Types (g : game) (w : world game) (l : locals).

Let thr : Q := TIMER_THRESHOLD self.

Lemma loop_body_ticks g l w l' w' :
  loop_body self g l w = (Ok l', w') ->
  (ticks w < ticks w')%nat /\
  (forall i, (ticks w <= i < ticks w')%nat -> Qltb (c i) thr = false).
Proof.
  intros H. pose proof (@sound_loop_body _ _ _ c thr self Hclock eq_refl g l w) as Hs.
  rewrite H in Hs. destruct Hs as (_ & _ & Hr). split; [|exact Hr].
  apply loop_body_Ok in H. destruct H as (mv & H & _).
  unfold alphabeta in H. inv_bind H as u w1 E.
  rewrite (check_time_run self w Hclock) in E.
  injection E as _ Hw1. subst w1.
  pose proof (@sound_bind game c thr _ _ _ _
                (proj1 (@sound_search _ _ _ c thr self Hclock eq_refl
                          (depth l)) g NegInf PosInf)
                (fun r => @sound_ret game c thr _ (snd r))) as Hs.
  specialize (Hs {| ticks := S (ticks w); trace := EvClock :: trace w |}).
  fold thr in H. unfold node in *. rewrite H in Hs. simpl in Hs. lia.
Qed.

Lemma loop_body_raises_timeout g l w e w' :
  loop_body self g l w = (Raise e, w') ->
  e = SearchTimeout /\ Qltb (c (pred (ticks w'))) thr = true.
Proof.
  intros H. pose proof (@sound_loop_body _ _ _ c thr self Hclock eq_refl g l w) as Hs.
  rewrite H in Hs. destruct Hs as (He & _ & _ & Hlast & _).
  split; assumption.
Qed.

(** A reading below the threshold, at a call not yet made, stops the loop. *)
Lemma deepening_loop_ends g n :
  Qltb (c n) thr = true ->
  forall k l w,
    (ticks w <= n)%nat -> (n - ticks w <= k)%nat ->
    exists l' w', deepening_loop (S k) self g l w
                  = Some (SearchTimeout, l', w').
Proof.
  intros Hn. induction k as [|k IH]; intros l w Hw Hk;
    simpl; destruct (loop_body self g l w) as [[l1|e] w1] eqn:E.
  - apply loop_body_ticks in E. destruct E as [Ht Hr].
    assert (n = ticks w) by lia. subst n.
    rewrite Hr in Hn by lia. discriminate.
  - apply loop_body_raises_timeout in E. destruct E as [-> _].
    exists l, w1. reflexivity.
  - apply loop_body_ticks in E. destruct E as [Ht Hr].
    destruct (Nat.lt_ge_cases n (ticks w1)) as [Hlt|Hge].
    + rewrite Hr in Hn by lia. discriminate.
    + apply IH; lia.
  - apply loop_body_raises_timeout in E. destruct E as [-> _].
    exists l, w1. reflexivity.
Qed.

(** With no reading below the threshold every iteration completes. *)
Hypothesis Hnever : forall i, Qltb (c i) thr = false.

Lemma loop_body_completes g l w :
  exists mv w',
    alphabeta self g (depth l) NegInf PosInf w = (Ok mv, w') /\
    loop_body self g l w
    = (Ok {| depth := S (depth l); chosen_move_in_time := mv |}, w').
Proof.
  destruct (loop_body self g l w) as [[l1|e] w1] eqn:E.
  - destruct (loop_body_Ok _ _ _ _ E) as (mv & Hab & ->).
    exists mv, w1. split; [exact Hab|reflexivity].
  - apply loop_body_raises_timeout in E. destruct E as [_ E].
    rewrite Hnever in E. discriminate.
Qed.

Lemma iterate_never_stops g l w n :
  exists l' w', iterate n self g l w = Some (l', w').
Proof.
  induction n as [|n (l1 & w1 & IH)].
  - exists l, w. reflexivity.
  - destruct (loop_body_completes g l1 w1) as (mv & w2 & _ & E).
    eexists. exists w2. simpl. rewrite IH, E. reflexivity.
Qed.

Lemma deepening_loop_never_stops g fuel :
  forall l w, deepening_loop fuel self g l w = None.
Proof.
  induction fuel as [|fuel IH]; intros l w; [reflexivity|].
  simpl. destruct (loop_body_completes g l w) as (mv & w' & _ & E).
  rewrite E. apply IH.
Qed.

End Stopping.

(** ** [get_move] *)

Section GetMove.

Context {game player : Type} {B : Board game player}.

Implicit Types (self : CustomPlayer game player) (g : game) (w : world game).


Lemma get_move_unfold fuel self g clk seed w :
  get_move fuel self g clk seed w
  = match get_legal_moves g (active_player g) with
    | [] => Some (Ok sentinel, set_time_left self clk, entered g w)
    | (_ :: _) as legal_moves =>
        match deepening_loop fuel (set_time_left self clk) g initial_locals
                (entered g w) with
        | None => None
        | Some (SearchTimeout, l, w2) =>
            let (r, w3) := after_loop seed legal_moves l w2 in
            Some (r, set_time_left self clk, w3)
        | Some (e, _, w2) => Some (Raise e, set_time_left self clk, w2)
        end
    end.
Proof.
  unfold get_move. rewrite call_legal_moves_run.
  destruct (get_legal_moves g (active_player g)); reflexivity.
Qed.

Lemma after_loop_run seed (lm : list move) (l : locals) w :
  @after_loop game seed lm l w
  = if move_eqb (chosen_move_in_time l) sentinel
    then (Ok (nth (seed mod length lm) lm sentinel),
          mkWorld (ticks w) (EvRandom :: trace w))
    else (Ok (chosen_move_in_time l), w).
Proof.
  unfold after_loop. destruct (move_eqb (chosen_move_in_time l) sentinel);
    reflexivity.
Qed.

(** How a returning call of [get_move] on a state with legal moves ran:
    [n] iterations completed, the next search raised [SearchTimeout], and
    the statements after the loop produced the result. *)
Lemma get_move_run fuel self g clk seed w r self' w' :
  get_legal_moves g (active_player g) <> [] ->
  get_move fuel self g clk seed w = Some (r, self', w') ->
  self' = set_time_left self clk /\
  exists n l w1 w2,
    (n < fuel)%nat /\
    iterate n self' g initial_locals (entered g w) = Some (l, w1) /\
    loop_body self' g l w1 = (Raise SearchTimeout, w2) /\
    (r, w') = after_loop seed (get_legal_moves g (active_player g)) l w2.
Proof.
  intros Hlm H. rewrite get_move_unfold in H.
  destruct (get_legal_moves g (active_player g)) as [|m0 rest] eqn:Elm;
    [congruence|].
  destruct (deepening_loop fuel (set_time_left self clk) g initial_locals
              (entered g w)) as [[[e l] w2]|] eqn:Eloop; [|discriminate].
  apply deepening_loop_stops in Eloop.
  destruct Eloop as (n & w1 & Hn & Hit & Hraise).
  destruct (@loop_body_raises_timeout _ _ _ (set_time_left self clk) clk
              eq_refl g l w1 e w2 Hraise) as [-> _].
  destruct (after_loop seed (m0 :: rest) l w2) as [r3 w3] eqn:Eafter.
  injection H as Hr Hself Hw. subst r3 self' w3.
  split; [reflexivity|]. exists n, l, w1, w2.
  repeat split; try assumption. symmetry. exact Eafter.
Qed.

(** Completed iterations met no reading below the threshold. *)
Lemma iterate_span self clk g n (l l' : locals) w w1 :
  time_left self = Some clk ->
  iterate n self g l w = Some (l', w1) ->
  (ticks w <= ticks w1)%nat /\
  (forall i, (ticks w <= i < ticks w1)%nat ->
             Qltb (clk i) (TIMER_THRESHOLD self) = false).
Proof.
  intros Hclk. revert l' w1. induction n as [|n IH]; intros l' w1 H.
  - simpl in H. injection H as _ <-. split; [lia|]. intros i Hi. lia.
  - simpl in H. destruct (iterate n self g l w) as [[l0 w0]|]; [|discriminate].
    destruct (loop_body self g l0 w0) as [[l2|e] w2] eqn:E; [|discriminate].
    injection H as _ <-.
    destruct (IH l0 w0 eq_refl) as [Ht Hr].
    destruct (@loop_body_ticks _ _ _ self clk Hclk g l0 w0 l2 w2 E)
      as [Ht' Hr'].
    split; [lia|]. intros i Hi.
    destruct (Nat.lt_ge_cases i (ticks w0)); [apply Hr|apply Hr']; lia.
Qed.

(** A returning call has read the clock up to the first reading below the
    threshold and no further. *)
Lemma get_move_reads_until_low
    fuel self g clk seed w r self' w' :
  get_legal_moves g (active_player g) <> [] ->
  get_move fuel self g clk seed w = Some (r, self', w') ->
  exists n,
    ticks w' = S n /\
    (ticks w <= n)%nat /\
    Qltb (clk n) (TIMER_THRESHOLD self) = true /\
    (forall i, (ticks w <= i < n)%nat ->
               Qltb (clk i) (TIMER_THRESHOLD self) = false).
Proof.
  intros Hlm H.
  destruct (get_move_run _ _ _ _ _ _ Hlm H)
    as (-> & n & l & w1 & w2 & _ & Hit & Hraise & Hafter).
  destruct (@iterate_span (set_time_left self clk) clk g n _ _ _ _
              eq_refl Hit) as [Ht Hr].
  simpl in Ht, Hr.
  pose proof (@sound_loop_body _ _ _ clk (TIMER_THRESHOLD self)
                (set_time_left self clk) eq_refl eq_refl g l w1) as Hs.
  rewrite Hraise in Hs. destruct Hs as (_ & Ht2 & _ & Hlast & Hr2).
  assert (Hw' : ticks w' = ticks w2).
  { rewrite after_loop_run in Hafter.
    destruct (move_eqb (chosen_move_in_time l) sentinel);
      injection Hafter as _ ->; reflexivity. }
  exists (pred (ticks w2)). split; [lia|]. split; [lia|].
  split; [exact Hlast|]. intros i Hi.
  destruct (Nat.lt_ge_cases i (ticks w1)); [apply Hr|apply Hr2]; lia.
Qed.

End GetMove.

(** ** The statements about the agent *)

Section Claims.

Context {game player : Type} {B : Board game player}.

Implicit Types (self : CustomPlayer game player) (g : game) (w : world game).


Lemma get_move_result_legal fuel self g clk seed w r self' w' :
  get_legal_moves g (active_player g) <> [] ->
  get_move fuel self g clk seed w = Some (r, self', w') ->
  exists mv, r = Ok mv /\ In mv (get_legal_moves g (active_player g)).
Proof.
  intros Hlm H.
  destruct (get_move_run _ _ _ _ _ _ Hlm H)
    as (-> & n & l & w1 & w2 & _ & Hit & _ & Hafter).
  rewrite after_loop_run in Hafter.
  destruct (move_eqb (chosen_move_in_time l) sentinel) eqn:E;
    injection Hafter as Hr Hw; subst r; eexists; split; try reflexivity.
  - apply random_choice_legal. exact Hlm.
  - destruct (iterate_chosen_legal _ _ _ _ Hit) as [Hs|Hin]; [|exact Hin].
    apply move_eqb_eq in Hs. congruence.
Qed.


(** C3, amended.  On a state with a legal move and for every clock:
    - a call of [get_move] that returns, returns a legal move of the
      active player and no exception; [SearchTimeout] was raised exactly
      once: the [n] searches before it completed, the search that raised
      it is the last thing run before the statements after the loop, and
      the reading below the threshold that caused it is the only such
      reading made, and the last;
    - the call does return when some reading not yet made is below the
      threshold, the very first included;
    - the call does not return when no reading to come is below the
      threshold. *)
Theorem get_move_returns_legal_move self g clk seed w :
  get_legal_moves g (active_player g) <> [] ->
  (forall fuel r self' w',
      get_move fuel self g clk seed w = Some (r, self', w') ->
      (exists mv, r = Ok mv /\ In mv (get_legal_moves g (active_player g))) /\
      (exists n l w1 w2,
          iterate n self' g initial_locals (entered g w) = Some (l, w1) /\
          loop_body self' g l w1 = (Raise SearchTimeout, w2) /\
          (r, w') = after_loop seed (get_legal_moves g (active_player g))
                      l w2) /\
      (exists k,
          ticks w' = S k /\
          (ticks w <= k)%nat /\
          Qltb (clk k) (TIMER_THRESHOLD self) = true /\
          (forall i, (ticks w <= i < k)%nat ->
                     Qltb (clk i) (TIMER_THRESHOLD self) = false))) /\
  (forall n,
      (ticks w <= n)%nat ->
      Qltb (clk n) (TIMER_THRESHOLD self) = true ->
      exists mv self' w',
        get_move (S (n - ticks w)) self g clk seed w
        = Some (Ok mv, self', w') /\
        In mv (get_legal_moves g (active_player g))) /\
  ((forall i, (ticks w <= i)%nat ->
              Qltb (clk i) (TIMER_THRESHOLD self) = false) ->
   forall fuel, get_move fuel self g clk seed w = None).
Proof.
  intros Hlm. split; [|split].
  - intros fuel r self' w' H. split; [|split].
    + eapply get_move_result_legal; eassumption.
    + destruct (get_move_run _ _ _ _ _ _ Hlm H)
        as (-> & n & l & w1 & w2 & _ & Hit & Hraise & Hafter).
      exists n, l, w1, w2. repeat split; assumption.
    + eapply get_move_reads_until_low; eassumption.
  - intros n Hn Hbelow.
    destruct (@deepening_loop_ends _ _ _ (set_time_left self clk) clk
                eq_refl g n Hbelow (n - ticks w)%nat initial_locals
                (entered g w)) as (l & w2 & Hloop); [exact Hn|simpl; lia|].
    assert (Hrun : exists r w3,
               get_move (S (n - ticks w)) self g clk seed w
               = Some (r, set_time_left self clk, w3)).
    { rewrite get_move_unfold.
      destruct (get_legal_moves g (active_player g)) as [|m0 rest];
        [congruence|].
      rewrite Hloop.
      destruct (after_loop seed (m0 :: rest) l w2) as [r w3].
      exists r, w3. reflexivity. }
    destruct Hrun as (r & w3 & Hrun).
    destruct (get_move_result_legal _ _ _ _ _ _ Hlm Hrun) as (mv & -> & Hin).
    exists mv, (set_time_left self clk), w3. split; assumption.
  - intros Hnever fuel.
    destruct (get_move fuel self g clk seed w) as [[[r self'] w']|] eqn:H;
      [|reflexivity].
    exfalso.
    destruct (get_move_reads_until_low _ _ _ _ _ _ Hlm H)
      as (k & _ & Hk & Hlow & _).
    rewrite (Hnever k Hk) in Hlow. discriminate.
Qed.

(** C7.  On a state whose active player has no legal move, [get_move]
    returns the sentinel [(-1, -1)] at once: whatever the bound on the loop,
    the clock is not read and the only collaborator call is the enumeration
    of the moves; no evaluator call, no search. *)
Theorem get_move_without_moves fuel self g clk seed w :
  get_legal_moves g (active_player g) = [] ->
  get_move fuel self g clk seed w
  = Some (Ok sentinel, set_time_left self clk,
          mkWorld (ticks w) (EvMoves g :: trace w)).
Proof. intros H. rewrite get_move_unfold, H. reflexivity. Qed.

(** C8.  On a state with a legal move the loop of [get_move] is, for
    every clock, a succession of searches of depths 1, 2, 3, ...:
    - the call is still running after [fuel] iterations exactly when the
      first [fuel] iterations all completed;
    - after [n] completed iterations the depth is [n + 1], and the [n]-th
      completed iteration was the search of depth [n];
    - the call stops only when a search raises [SearchTimeout], the search
      of depth [n + 1] after [n] completed ones;
    and with a clock that never reads below the threshold every iteration
    completes and the call is still running whatever the bound. *)
Theorem deepening_never_stops_by_itself self g clk seed w :
  get_legal_moves g (active_player g) <> [] ->
  (forall fuel,
      get_move fuel self g clk seed w = None <->
      exists l w1,
        iterate fuel (set_time_left self clk) g initial_locals (entered g w)
        = Some (l, w1)) /\
  (forall n l w1,
      iterate n (set_time_left self clk) g initial_locals (entered g w)
      = Some (l, w1) ->
      depth l = S n /\
      forall k, n = S k ->
        exists l0 w0,
          iterate k (set_time_left self clk) g initial_locals (entered g w)
          = Some (l0, w0) /\
          depth l0 = n /\
          alphabeta (set_time_left self clk) g n NegInf PosInf w0
          = (Ok (chosen_move_in_time l), w1)) /\
  (forall fuel r self' w',
      get_move fuel self g clk seed w = Some (r, self', w') ->
      exists n l w1 w2,
        (n < fuel)%nat /\
        iterate n (set_time_left self clk) g initial_locals (entered g w)
        = Some (l, w1) /\
        alphabeta (set_time_left self clk) g (S n) NegInf PosInf w1
        = (Raise SearchTimeout, w2)) /\
  ((forall i, Qltb (clk i) (TIMER_THRESHOLD self) = false) ->
   (forall n,
       exists l w1 mv w2,
         iterate n (set_time_left self clk) g initial_locals (entered g w)
         = Some (l, w1) /\
         depth l = S n /\
         alphabeta (set_time_left self clk) g (S n) NegInf PosInf w1
         = (Ok mv, w2) /\
         iterate (S n) (set_time_left self clk) g initial_locals (entered g w)
         = Some ({| depth := S (S n); chosen_move_in_time := mv |}, w2)) /\
   (forall fuel, get_move fuel self g clk seed w = None)).
Proof.
  intros Hlm. split; [|split; [|split]].
  - intros fuel. rewrite <- deepening_loop_running, get_move_unfold.
    destruct (get_legal_moves g (active_player g)) as [|m0 rest];
      [congruence|].
    destruct (deepening_loop fuel (set_time_left self clk) g initial_locals
                (entered g w)) as [[[e l] w2]|].
    + split; [|discriminate]. destruct e.
      * destruct (after_loop seed (m0 :: rest) l w2). discriminate.
      * discriminate.
    + split; reflexivity.
  - intros n l w1 Hit.
    pose proof (iterate_depth _ _ _ _ _ Hit) as Hd. simpl in Hd.
    split; [lia|]. intros k ->. simpl in Hit.
    destruct (iterate k (set_time_left self clk) g initial_locals
                (entered g w)) as [[l0 w0]|] eqn:Hk; [|discriminate].
    destruct (loop_body (set_time_left self clk) g l0 w0)
      as [[l2|e] w3] eqn:E; [|discriminate].
    injection Hit as Hl Hw. subst l2 w3.
    exists l0, w0. split; [reflexivity|].
    apply iterate_depth in Hk. simpl in Hk.
    apply loop_body_Ok in E. destruct E as (mv & Hab & ->). simpl.
    split; [lia|]. replace (S k) with (depth l0) by lia. exact Hab.
  - intros fuel r self' w' H.
    destruct (get_move_run _ _ _ _ _ _ Hlm H)
      as (-> & n & l & w1 & w2 & Hn & Hit & Hraise & _).
    exists n, l, w1, w2. split; [exact Hn|]. split; [exact Hit|].
    pose proof (iterate_depth _ _ _ _ _ Hit) as Hd. simpl in Hd.
    apply loop_body_Raise in Hraise. rewrite <- Hraise. f_equal. lia.
  - intros Hnever. split.
    + intros n.
      destruct (@iterate_never_stops _ _ _ (set_time_left self clk) clk
                  eq_refl Hnever g initial_locals (entered g w) n)
        as (l & w1 & Hit).
      destruct (@loop_body_completes _ _ _ (set_time_left self clk) clk
                  eq_refl Hnever g l w1) as (mv & w2 & Hab & Hbody).
      pose proof (iterate_depth _ _ _ _ _ Hit) as Hd. simpl in Hd.
      assert (Hdepth : depth l = S n) by lia.
      exists l, w1, mv, w2.
      split; [exact Hit|]. split; [exact Hdepth|].
      split; [rewrite <- Hdepth; exact Hab|].
      simpl. rewrite Hit, Hbody, Hdepth. reflexivity.
    + intros fuel. rewrite get_move_unfold.
      destruct (get_legal_moves g (active_player g)); [congruence|].
      rewrite (@deepening_loop_never_stops _ _ _ (set_time_left self clk) clk
                 eq_refl Hnever g fuel). reflexivity.
Qed.


Lemma check_first_raises {A : Type} self clk (k : M game A) w :
  time_left self = Some clk ->
  Qltb (clk (ticks w)) (TIMER_THRESHOLD self) = true ->
  (check_time self ;;; k) w
  = (Raise SearchTimeout, mkWorld (S (ticks w)) (EvClock :: trace w)).
Proof.
  intros Hclk Hlow. unfold bind.
  rewrite (check_time_run self w Hclk), Hlow. reflexivity.
Qed.


(** C5.  For a player [p]: a state that is a loss for [p] scores minus
    infinity, a state that is a win for [p] (and, being a win, not a loss)
    scores plus infinity, a state that is neither scores a finite value;
    so a win scores strictly above every state that is neither, which
    scores strictly above every loss. *)
Theorem custom_score_boundaries (p : player) (gw gn gl : game) :
  is_winner gw p = true -> is_loser gw p = false ->
  is_loser gn p = false -> is_winner gn p = false ->
  is_loser gl p = true ->
  custom_score gl p = NegInf /\
  custom_score gw p = PosInf /\
  is_finite (custom_score gn p) = true /\
  slt (custom_score gn p) (custom_score gw p) /\
  slt (custom_score gl p) (custom_score gn p).
Proof.
  intros Hw1 Hw2 Hn1 Hn2 Hl. unfold custom_score.
  rewrite Hw1, Hw2, Hn1, Hn2, Hl. repeat split.
Qed.


(** C9, amended.  A returning call of [get_move] leaves the identity, the
    evaluator and the threshold of the agent as they were and writes one
    attribute, [time_left], which now holds the clock of the call; the
    attribute is written before it is read, so the call does not depend on
    the clock kept from an earlier call. *)
Theorem get_move_writes_time_left_only fuel self g clk seed w r self' w' :
  get_move fuel self g clk seed w = Some (r, self', w') ->
  ident self' = ident self /\
  score self' = score self /\
  TIMER_THRESHOLD self' = TIMER_THRESHOLD self /\
  time_left self' = Some clk /\
  (forall old,
      get_move fuel (with_time_left self old) g clk seed w
      = Some (r, self', w')).
Proof.
  intros H.
  assert (Hself : self' = set_time_left self clk).
  { rewrite get_move_unfold in H.
    destruct (get_legal_moves g (active_player g)) as [|m0 rest].
    - injection H as _ Hs _. symmetry. exact Hs.
    - destruct (deepening_loop fuel (set_time_left self clk) g
                  initial_locals (entered g w)) as [[[e l] w2]|];
        [|discriminate].
      destruct e.
      + destruct (after_loop seed (m0 :: rest) l w2).
        injection H as _ Hs _. symmetry. exact Hs.
      + injection H as _ Hs _. symmetry. exact Hs. }
  subst self'. repeat split. intros old. exact H.
Qed.

(** C10.  The constructor ignores [data]: whatever the two data values, the
    agents built with one identity and one timeout are the same object
    state, with evaluator [custom_score] and threshold the timeout, hence
    [get_move] and [alphabeta] behave alike on them. *)
Theorem constructor_ignores_data {D1 D2 : Type} (d1 : D1) (d2 : D2)
    (self_id : player) (timeout : Q) :
  CustomPlayer_init self_id d1 timeout = CustomPlayer_init self_id d2 timeout /\
  score (CustomPlayer_init self_id d1 timeout) = custom_score /\
  TIMER_THRESHOLD (CustomPlayer_init self_id d1 timeout) = timeout /\
  (forall fuel g clk seed w,
      get_move fuel (CustomPlayer_init self_id d1 timeout) g clk seed w
      = get_move fuel (CustomPlayer_init self_id d2 timeout) g clk seed w) /\
  (forall g d alpha beta w,
      alphabeta (CustomPlayer_init self_id d1 timeout) g d alpha beta w
      = alphabeta (CustomPlayer_init self_id d2 timeout) g d alpha beta w).
Proof. repeat split. Qed.

End Claims.

(** ** The tie-break of plain minimax *)

Section FirstBest.

Context {game player : Type} {B : Board game player}.

Variable mchild : game -> node.
Variable g : game.

Let f (mv : move) : sc := fst (mchild (forecast_move g mv)).

(** The loop keeps its best move when no child beats the running best, and
    otherwise ends on the first child of the best score. *)
Lemma minimax_max_loop_first_best moves :
  forall M bm,
    (snd (minimax_max_loop mchild g moves M bm) = bm /\
     forall mv, In mv moves -> sle (f mv) M) \/
    (exists pre mv post,
        moves = pre ++ mv :: post /\
        snd (minimax_max_loop mchild g moves M bm) = mv /\
        slt M (f mv) /\
        (forall m, In m pre -> slt (f m) (f mv)) /\
        (forall m, In m post -> sle (f m) (f mv))).
Proof.
  induction moves as [|mv rest IH]; intros M bm.
  - left. split; [reflexivity|]. intros mv [].
  - simpl minimax_max_loop. fold (f mv).
    destruct (sc_ltb M (f mv)) eqn:E.
    + right. destruct (IH (f mv) mv) as [[Hs Hall]|Hex].
      * exists [], mv, rest. repeat split; auto. intros m [].
      * destruct Hex as (pre & mv' & post & -> & Hs & Hlt & Hpre & Hpost).
        exists (mv :: pre), mv', post. repeat split; auto.
        -- clear - E Hlt. sc_ord.
        -- intros m [<-|Hin]; [exact Hlt|apply Hpre; exact Hin].
    + destruct (IH M bm) as [[Hs Hall]|Hex].
      * left. split; [exact Hs|]. intros m [<-|Hin]; [|apply Hall; exact Hin].
        clear - E. sc_ord.
      * right.
        destruct Hex as (pre & mv' & post & -> & Hs & Hlt & Hpre & Hpost).
        exists (mv :: pre), mv', post. repeat split; auto.
        intros m [<-|Hin]; [|apply Hpre; exact Hin].
        clear - E Hlt. sc_ord.
Qed.

End FirstBest.

(** At the root: the move of [minimax] is the first legal move whose
    minimax score is the best one, and the sentinel when no move scores
    above minus infinity. *)
Lemma minimax_first_best {game player : Type} {B : Board game player}
    (self : CustomPlayer game player) (g : game) (d : nat) :
  let moves := get_legal_moves g (active_player g) in
  let f := fun mv => fst (minimax_min self d (forecast_move g mv)) in
  (minimax self g (S d) = sentinel /\
   forall mv, In mv moves -> sle (f mv) NegInf) \/
  (exists pre mv post,
      moves = pre ++ mv :: post /\
      minimax self g (S d) = mv /\
      slt NegInf (f mv) /\
      (forall m, In m pre -> slt (f m) (f mv)) /\
      (forall m, In m post -> sle (f m) (f mv))).
Proof.
  cbv zeta. unfold minimax.
  destruct (get_legal_moves g (active_player g)) as [|m0 rest] eqn:Hlm.
  - left. rewrite (minimax_max_stuck _ _ _ Hlm).
    split; [reflexivity|]. intros mv [].
  - rewrite (minimax_max_moves _ _ _ Hlm).
    destruct (minimax_max_loop_first_best (minimax_min self d) g
                (m0 :: rest) NegInf sentinel) as [H|H].
    + left. exact H.
    + right. destruct H as (pre & mv & post & H1 & H2 & H0 & H3 & H4).
      exists pre, mv, post. repeat split; assumption.
Qed.

(** ** Pruning against minimax in the words of the specification *)

Section SpecReference.

Context {game player : Type} {B : Board game player}.

Implicit Types (self : CustomPlayer game player) (g : game) (w : world game).







Section FirstBestMove.

Variable f : move -> sc.





End FirstBestMove.


End SpecReference.

(** ** The statements on the synthetic games *)

Import Toy.

(** Pruning at work: the search of [scored] never scores the leaf 9. *)
Example scored_cutoff :
  In (EvScore (leaf x 2))
     (trace (snd (alphabeta (reader steady) scored 2 NegInf PosInf w0))) /\
  ~ In (EvScore (leaf y 9))
       (trace (snd (alphabeta (reader steady) scored 2 NegInf PosInf w0))).
Proof.
  split.
  - vm_compute. repeat (first [left; reflexivity|right]).
  - vm_compute. intros H.
    repeat (destruct H as [H|H]; [discriminate H|]). exact H.
Qed.





(** With the clock already below the threshold at the first check. *)
Lemma get_move_returns_legal_move_witness :
  exists mv self' w',
    get_move 1 agent trapped expired 1 w0 = Some (Ok mv, self', w') /\
    In mv (get_legal_moves trapped (active_player trapped)).
Proof.
  assert (Hlm : get_legal_moves trapped (active_player trapped) <> [])
    by (vm_compute; discriminate).
  apply (proj1 (proj2 (@get_move_returns_legal_move _ _ _ agent trapped
                         expired 1 w0 Hlm)) 0%nat).
  - simpl. lia.
  - reflexivity.
Defined.

(** Against C3 as the specification words it: for a clock that never reads
    below the threshold the call returns nothing, whatever the bound. *)
Lemma get_move_may_not_return :
  ~ exists fuel r self' w',
      get_move fuel agent trapped steady 0 w0 = Some (r, self', w').
Proof.
  intros (fuel & r & self' & w' & H). rewrite get_move_unfold in H.
  simpl get_legal_moves in H. cbv iota in H.
  rewrite (@deepening_loop_never_stops _ _ _ (set_time_left agent steady)
             steady eq_refl (fun _ => eq_refl) trapped fuel) in H.
  discriminate.
Qed.


Lemma custom_score_boundaries_witness :
  custom_score (stuck x) true = NegInf /\
  custom_score opponent_stuck true = PosInf /\
  is_finite (custom_score trapped true) = true /\
  slt (custom_score trapped true) (custom_score opponent_stuck true) /\
  slt (custom_score (stuck x) true) (custom_score trapped true).
Proof. apply custom_score_boundaries; reflexivity. Defined.


Lemma get_move_without_moves_witness :
  get_move 0 agent (stuck x) steady 0 w0
  = Some (Ok sentinel, set_time_left agent steady,
          mkWorld 0 [EvMoves (stuck x)]).
Proof. apply get_move_without_moves. reflexivity. Defined.

Lemma deepening_never_stops_by_itself_witness :
  (forall n,
      exists l w1 mv w2,
        iterate n (set_time_left agent steady) trapped initial_locals
          (entered trapped w0) = Some (l, w1) /\
        depth l = S n /\
        alphabeta (set_time_left agent steady) trapped (S n) NegInf PosInf w1
        = (Ok mv, w2) /\
        iterate (S n) (set_time_left agent steady) trapped initial_locals
          (entered trapped w0)
        = Some ({| depth := S (S n); chosen_move_in_time := mv |}, w2)) /\
  (forall fuel, get_move fuel agent trapped steady 0 w0 = None).
Proof.
  assert (Hlm : get_legal_moves trapped (active_player trapped) <> [])
    by (vm_compute; discriminate).
  apply (proj2 (proj2 (proj2 (@deepening_never_stops_by_itself _ _ _ agent
                                trapped steady 0 w0 Hlm)))).
  intros i. reflexivity.
Defined.

Lemma get_move_writes_time_left_only_witness :
  ident (set_time_left agent expired) = ident agent /\
  score (set_time_left agent expired) = score agent /\
  TIMER_THRESHOLD (set_time_left agent expired) = TIMER_THRESHOLD agent /\
  time_left (set_time_left agent expired) = Some expired /\
  (forall old,
      get_move 1 (with_time_left agent old) trapped expired 1 w0
      = Some (Ok b, set_time_left agent expired,
              mkWorld 1 [EvRandom; EvClock; EvMoves trapped])).
Proof.
  apply (@get_move_writes_time_left_only _ _ _ 1 agent trapped expired 1 w0).
  vm_compute. reflexivity.
Defined.

(** Against C9 as the specification words it: the agent leaves [get_move]
    holding the clock of the call, which its constructor had not set, and a
    later [alphabeta] sees the difference. *)
Lemma get_move_keeps_the_clock :
  exists r w',
    get_move 1 agent trapped expired 1 w0
    = Some (r, set_time_left agent expired, w') /\
    time_left agent = None /\
    time_left (set_time_left agent expired) = Some expired /\
    fst (alphabeta agent trapped 1 NegInf PosInf w') = Raise TypeError /\
    fst (alphabeta (set_time_left agent expired) trapped 1 NegInf PosInf w')
    = Raise SearchTimeout.
Proof.
  do 2 eexists. split; [vm_compute; reflexivity|].
  repeat split.
Qed.

(** * Further properties of the search and of [get_move] *)

Section Further.

Context {game player : Type} {B : Board game player}.

Implicit Types (self : CustomPlayer game player) (g : game) (w : world game).

Lemma bounds_full_window (v' v : sc) :
  bounds NegInf PosInf v' v -> sc_equiv v' v.
Proof.
  intros (H1 & H2 & H3). apply sc_equiv_iff.
  pose proof (sle_NegInf v) as Hlo. pose proof (sle_PosInf v) as Hhi.
  destruct (sc_leb v' NegInf) eqn:E1.
  - specialize (H1 E1). clear H2 H3. split; sc_ord.
  - destruct (sc_leb PosInf v') eqn:E2.
    + specialize (H2 E2). clear H1 H3. split; sc_ord.
    + destruct H3 as [Ha Hb].
      * apply sc_leb_false_slt. exact E1.
      * apply sc_leb_false_slt. exact E2.
      * split; assumption.
Qed.

(** X1.  Whatever the window [alpha < beta], the score a node returns is
    tied to the minimax score of the node: strictly inside the window it is
    the minimax score, at or below [alpha] it is no less than the minimax
    score, at or above [beta] no more. *)
Theorem pruned_score_against_window self d g alpha beta w :
  slt alpha beta ->
  (forall r w',
      _max_value self d g alpha beta w = (Ok r, w') ->
      bounds alpha beta (fst r) (fst (minimax_max self d g))) /\
  (forall r w',
      _min_value self d g alpha beta w = (Ok r, w') ->
      bounds alpha beta (fst r) (fst (minimax_min self d g))).
Proof.
  intros Hab. split; intros r w' Hrun.
  - exact (proj1 (search_bounds self d) g alpha beta w r w' Hab Hrun).
  - exact (proj2 (search_bounds self d) g alpha beta w r w' Hab Hrun).
Qed.

(** X2.  Searched with the full window, a maximising and a minimising node
    return the minimax score of the state: pruning inside the subtree does
    not change the value. *)
Theorem full_window_score_is_minimax_score self d g w r w' :
  (_max_value self d g NegInf PosInf w = (Ok r, w') ->
   sc_equiv (fst r) (fst (minimax_max self d g))) /\
  (_min_value self d g NegInf PosInf w = (Ok r, w') ->
   sc_equiv (fst r) (fst (minimax_min self d g))).
Proof.
  split; intros Hrun; apply bounds_full_window.
  - exact (proj1 (search_bounds self d) g NegInf PosInf w r w' eq_refl Hrun).
  - exact (proj2 (search_bounds self d) g NegInf PosInf w r w' eq_refl Hrun).
Qed.

(** X3.  The move [alphabeta] returns at depth [d + 1]: the sentinel when
    no legal move has a minimax score above minus infinity (none at all
    included), and otherwise a legal move of the best minimax score, that
    score above minus infinity, the first such move in the enumeration. *)
Theorem alphabeta_returns_first_best_move self g d w mv w' :
  alphabeta self g (S d) NegInf PosInf w = (Ok mv, w') ->
  (mv = sentinel /\
   forall m, In m (get_legal_moves g (active_player g)) ->
             sle (fst (minimax_min self d (forecast_move g m))) NegInf) \/
  (exists pre post,
      get_legal_moves g (active_player g) = pre ++ mv :: post /\
      slt NegInf (fst (minimax_min self d (forecast_move g mv))) /\
      (forall m, In m pre ->
         slt (fst (minimax_min self d (forecast_move g m)))
             (fst (minimax_min self d (forecast_move g mv)))) /\
      (forall m, In m post ->
         sle (fst (minimax_min self d (forecast_move g m)))
             (fst (minimax_min self d (forecast_move g mv))))).
Proof.
  intros Hrun. apply alphabeta_run_minimax in Hrun. subst mv.
  destruct (minimax_first_best self g d) as [H|H].
  - left. exact H.
  - right. destruct H as (pre & mv & post & H1 & H2 & H0 & H3 & H4).
    rewrite H2. exists pre, post. repeat split; assumption.
Qed.

(** X4.  The three search routines poll the clock faithfully: a call that
    returns met no reading below the threshold; a call that raises, raises
    [SearchTimeout], and the reading below the threshold is the last one it
    made, all the earlier ones being at or above it. *)
Theorem search_stops_at_first_low_reading self clk g d alpha beta :
  time_left self = Some clk ->
  sound clk (TIMER_THRESHOLD self) (alphabeta self g d alpha beta) /\
  sound clk (TIMER_THRESHOLD self) (_max_value self d g alpha beta) /\
  sound clk (TIMER_THRESHOLD self) (_min_value self d g alpha beta).
Proof.
  intros Hclk.
  pose proof (@sound_search _ _ _ clk (TIMER_THRESHOLD self) self Hclk
                eq_refl d) as [Hmax Hmin].
  split; [|split].
  - apply (@sound_alphabeta _ _ _ clk (TIMER_THRESHOLD self) self Hclk eq_refl).
  - apply Hmax.
  - apply Hmin.
Qed.

(** X5.  Called on an agent whose [time_left] is still [None], as the
    constructor leaves it, the three search routines raise [TypeError] and
    touch nothing. *)
Theorem search_without_clock_raises_TypeError self g d alpha beta w :
  time_left self = None ->
  alphabeta self g d alpha beta w = (Raise TypeError, w) /\
  _max_value self d g alpha beta w = (Raise TypeError, w) /\
  _min_value self d g alpha beta w = (Raise TypeError, w).
Proof.
  intros H. unfold alphabeta. rewrite max_value_unfold, min_value_unfold.
  unfold bind. rewrite (check_time_unset self w H). repeat split.
Qed.

(** X6.  At the root, [alphabeta] checks the clock twice before anything
    else, its own check and that of [_max_value].  With both readings at
    or above the threshold: at depth 0 it scores the state and returns the
    location of the agent; at a positive depth on a state without legal
    moves it scores the state and returns the sentinel. *)
Theorem alphabeta_at_a_leaf_root self clk g d w :
  time_left self = Some clk ->
  Qltb (clk (ticks w)) (TIMER_THRESHOLD self) = false ->
  Qltb (clk (S (ticks w))) (TIMER_THRESHOLD self) = false ->
  alphabeta self g 0 NegInf PosInf w
  = (Ok (get_player_location g (ident self)),
     mkWorld (S (S (ticks w)))
       (EvLocation g :: EvScore g :: EvClock :: EvClock :: trace w)) /\
  (get_legal_moves g (active_player g) = [] ->
   alphabeta self g (S d) NegInf PosInf w
   = (Ok sentinel,
      mkWorld (S (S (ticks w)))
        (EvScore g :: EvMoves g :: EvClock :: EvClock :: trace w))).
Proof.
  intros Hclk H0 H1. split; [|intros Hnil];
    unfold alphabeta; rewrite max_value_unfold; unfold bind;
    rewrite (check_time_run self w Hclk), H0;
    rewrite (check_time_run self _ Hclk); simpl ticks; rewrite H1.
  - reflexivity.
  - rewrite call_legal_moves_run, Hnil. reflexivity.
Qed.

End Further.

Section FurtherGetMove.

Context {game player : Type} {B : Board game player}.

Implicit Types (self : CustomPlayer game player) (g : game) (w : world game).

(** X7.  With the very first reading of the clock below the threshold,
    [get_move] on a state with legal moves reads the clock once, evaluates
    nothing, and returns the random pick among the legal moves of the
    root. *)
Theorem get_move_with_expired_clock fuel self g clk seed w :
  get_legal_moves g (active_player g) <> [] ->
  Qltb (clk (ticks w)) (TIMER_THRESHOLD self) = true ->
  get_move (S fuel) self g clk seed w
  = Some (Ok (nth (seed mod length (get_legal_moves g (active_player g)))
                  (get_legal_moves g (active_player g)) sentinel),
          set_time_left self clk,
          mkWorld (S (ticks w))
            (EvRandom :: EvClock :: EvMoves g :: trace w)).
Proof.
  intros Hlm Hlow. rewrite get_move_unfold.
  destruct (get_legal_moves g (active_player g)) as [|m0 rest];
    [congruence|].
  assert (Hbody : loop_body (set_time_left self clk) g initial_locals
                    (entered g w)
                  = (Raise SearchTimeout,
                     mkWorld (S (ticks w)) (EvClock :: EvMoves g :: trace w))).
  { unfold loop_body. unfold bind at 1. unfold alphabeta.
    rewrite (@check_first_raises _ _ _ (set_time_left self clk) clk _
               (entered g w) eq_refl Hlow). reflexivity. }
  simpl deepening_loop. rewrite Hbody. reflexivity.
Qed.

(** X8.  A call of [get_move] that returns on a state with legal moves has
    read the clock up to the first reading below the threshold and not
    once more. *)
Theorem get_move_stops_at_first_low_reading
    fuel self g clk seed w r self' w' :
  get_legal_moves g (active_player g) <> [] ->
  get_move fuel self g clk seed w = Some (r, self', w') ->
  exists n,
    ticks w' = S n /\
    (ticks w <= n)%nat /\
    Qltb (clk n) (TIMER_THRESHOLD self) = true /\
    (forall i, (ticks w <= i < n)%nat ->
               Qltb (clk i) (TIMER_THRESHOLD self) = false).
Proof.
  intros Hlm H. eapply get_move_reads_until_low; eassumption.
Qed.

(** X9.  What [get_move] returns, in terms of plain minimax: with [n] the
    number of depths completed before the timeout, the minimax move of
    depth [n] when [n >= 1] and that move is not the sentinel, and the
    random pick among the legal moves of the root otherwise. *)
Theorem get_move_returns_deepest_minimax_move
    fuel self g clk seed w r self' w' :
  get_legal_moves g (active_player g) <> [] ->
  get_move fuel self g clk seed w = Some (r, self', w') ->
  exists n l w1 w2,
    iterate n self' g initial_locals (entered g w) = Some (l, w1) /\
    alphabeta self' g (S n) NegInf PosInf w1 = (Raise SearchTimeout, w2) /\
    (((1 <= n)%nat /\ minimax self' g n <> sentinel /\
      r = Ok (minimax self' g n)) \/
     ((n = 0%nat \/ minimax self' g n = sentinel) /\
      r = Ok (nth (seed mod length (get_legal_moves g (active_player g)))
                  (get_legal_moves g (active_player g)) sentinel))).
Proof.
  intros Hlm H.
  destruct (get_move_run _ _ _ _ _ _ Hlm H)
    as (-> & n & l & w1 & w2 & _ & Hit & Hraise & Hafter).
  exists n, l, w1, w2. split; [exact Hit|].
  pose proof (iterate_depth _ _ _ _ _ Hit) as Hd. simpl in Hd.
  split.
  { apply loop_body_Raise in Hraise. rewrite <- Hraise. f_equal. lia. }
  rewrite after_loop_run in Hafter. destruct n as [|k].
  - right. simpl in Hit. injection Hit as <- _. simpl in Hafter.
    injection Hafter as -> _. split; [left|]; reflexivity.
  - simpl in Hit.
    destruct (iterate k (set_time_left self clk) g initial_locals
                (entered g w)) as [[l0 w0]|] eqn:Hk; [|discriminate].
    destruct (loop_body (set_time_left self clk) g l0 w0)
      as [[l2|e] w3] eqn:E; [|discriminate].
    injection Hit as Hl Hw. subst l2 w3.
    apply iterate_depth in Hk. simpl in Hk.
    apply loop_body_Ok in E. destruct E as (mv & Hab & ->).
    replace (depth l0) with (S k) in Hab by lia.
    apply alphabeta_run_minimax in Hab. subst mv. simpl in Hafter.
    destruct (move_eqb (minimax (set_time_left self clk) g (S k)) sentinel)
      eqn:Eq; injection Hafter as -> _.
    + right. apply move_eqb_eq in Eq. split; [right; exact Eq|reflexivity].
    + left. split; [lia|]. split; [|reflexivity].
      intros Hs. apply move_eqb_eq in Hs. congruence.
Qed.

(** X11.  Between two states that are neither a loss nor a win for [p],
    the heuristic does not decrease when [p] has no fewer moves, the
    opponent no more and the board no fewer blank cells, and it increases
    strictly when [p] has more moves or the opponent fewer. *)
Theorem custom_score_monotone (g1 g2 : game) (p : player) :
  is_loser g1 p = false -> is_winner g1 p = false ->
  is_loser g2 p = false -> is_winner g2 p = false ->
  (length (get_legal_moves g1 p) <= length (get_legal_moves g2 p))%nat ->
  (length (get_legal_moves g2 (get_opponent g2 p))
   <= length (get_legal_moves g1 (get_opponent g1 p)))%nat ->
  (length (get_blank_spaces g1) <= length (get_blank_spaces g2))%nat ->
  sle (custom_score g1 p) (custom_score g2 p) /\
  ((length (get_legal_moves g1 p) < length (get_legal_moves g2 p))%nat \/
   (length (get_legal_moves g2 (get_opponent g2 p))
    < length (get_legal_moves g1 (get_opponent g1 p)))%nat ->
   slt (custom_score g1 p) (custom_score g2 p)).
Proof.
  intros Hl1 Hw1 Hl2 Hw2 Hm Ho Hb. unfold custom_score, count.
  rewrite Hl1, Hw1, Hl2, Hw2.
  apply inj_le in Hm, Ho, Hb. rewrite Zle_Qle in Hm, Ho, Hb.
  split.
  - apply sc_leb_Fin_true. unfold Qdiv.
    change (/ 13)%Q with (1 # 13)%Q. change (/ 2)%Q with (1 # 2)%Q. lra.
  - intros Hstrict. apply sc_leb_false_slt. apply sc_leb_Fin_false.
    unfold Qdiv.
    change (/ 13)%Q with (1 # 13)%Q. change (/ 2)%Q with (1 # 2)%Q.
    destruct Hstrict as [H|H]; apply inj_lt in H; rewrite Zlt_Qlt in H; lra.
Qed.

End FurtherGetMove.

(** ** The events of a search *)

Section Events.

Context {game player : Type} {B : Board game player}.

Implicit Types (self : CustomPlayer game player) (g : game) (w : world game).

Variable P : event game -> Prop.

Lemma adds_ret {A : Type} (x : A) : adds P (@ret game A x).
Proof. intros w. exists []. split; [reflexivity|constructor]. Qed.

Lemma adds_raise {A : Type} (e : exn) : adds P (@raise game A e).
Proof. intros w. exists []. split; [reflexivity|constructor]. Qed.

Lemma adds_emit (e : event game) : P e -> adds P (emit e).
Proof.
  intros He w. exists [e]. split; [reflexivity|].
  constructor; [exact He|constructor].
Qed.

Lemma adds_bind {A C : Type} (m : M game A) (f : A -> M game C) :
  adds P m -> (forall x, adds P (f x)) -> adds P (bind m f).
Proof.
  intros Hm Hf w. unfold bind. destruct (Hm w) as (evs & Hevs & HP).
  destruct (m w) as [[x|e] w1]; simpl in Hevs.
  - destruct (Hf x w1) as (evs' & Hevs' & HP').
    exists (evs' ++ evs). split.
    + rewrite Hevs', Hevs. apply app_assoc.
    + apply Forall_app. split; assumption.
  - exists evs. split; assumption.
Qed.

Hypothesis P_clock : P EvClock.
Hypothesis P_score : forall g, P (EvScore g).
Hypothesis P_moves : forall g, P (EvMoves g).
Hypothesis P_location : forall g, P (EvLocation g).
Hypothesis P_forecast :
  forall g mv, In mv (get_legal_moves g (active_player g)) ->
               P (EvForecast g mv).

Lemma adds_check_time self : adds P (check_time self).
Proof.
  unfold check_time. apply adds_bind.
  - unfold read_clock. destruct (time_left self) as [c|].
    + intros w. exists [EvClock]. split; [reflexivity|].
      constructor; [exact P_clock|constructor].
    + apply adds_raise.
  - intros t. destruct (Qltb t (TIMER_THRESHOLD self));
      [apply adds_raise|apply adds_ret].
Qed.

Lemma adds_depth_leaf self g : adds P (depth_leaf self g).
Proof.
  unfold depth_leaf, call_score, call_location.
  repeat (apply adds_bind; [|intros ?]);
    first [apply adds_emit; auto | apply adds_ret].
Qed.

Lemma adds_stuck_leaf self g : adds P (stuck_leaf self g).
Proof.
  unfold stuck_leaf, call_score.
  repeat (apply adds_bind; [|intros ?]);
    first [apply adds_emit; auto | apply adds_ret].
Qed.

Lemma adds_max_loop (child : game -> sc -> sc -> M game node) g moves :
  (forall g' a b, adds P (child g' a b)) ->
  (forall mv, In mv moves -> In mv (get_legal_moves g (active_player g))) ->
  forall v bm a b, adds P (max_loop child g moves v bm a b).
Proof.
  intros Hchild. induction moves as [|mv rest IH]; intros Hin v bm a b.
  - apply adds_ret.
  - rewrite max_loop_cons. apply adds_bind.
    + unfold call_forecast. apply adds_bind; [|intros ?; apply adds_ret].
      apply adds_emit. apply P_forecast. apply Hin. left. reflexivity.
    + intros g'. apply adds_bind; [apply Hchild|intros r].
      destruct (sc_leb b (fst r)); [apply adds_ret|].
      apply IH. intros m Hm. apply Hin. right. exact Hm.
Qed.

Lemma adds_min_loop (child : game -> sc -> sc -> M game node) g moves :
  (forall g' a b, adds P (child g' a b)) ->
  (forall mv, In mv moves -> In mv (get_legal_moves g (active_player g))) ->
  forall v bm a b, adds P (min_loop child g moves v bm a b).
Proof.
  intros Hchild. induction moves as [|mv rest IH]; intros Hin v bm a b.
  - apply adds_ret.
  - rewrite min_loop_cons. apply adds_bind.
    + unfold call_forecast. apply adds_bind; [|intros ?; apply adds_ret].
      apply adds_emit. apply P_forecast. apply Hin. left. reflexivity.
    + intros g'. apply adds_bind; [apply Hchild|intros r].
      destruct (sc_leb (fst r) a); [apply adds_ret|].
      apply IH. intros m Hm. apply Hin. right. exact Hm.
Qed.

Lemma adds_node self g (loop : list move -> M game node) :
  (forall moves,
      (forall mv, In mv moves ->
                  In mv (get_legal_moves g (active_player g))) ->
      adds P (loop moves)) ->
  adds P (legal_moves <- call_legal_moves g ;;
          match legal_moves with
          | [] => stuck_leaf self g
          | _ :: _ => loop legal_moves
          end).
Proof.
  intros Hloop w. unfold bind. rewrite call_legal_moves_run.
  destruct (get_legal_moves g (active_player g)) as [|m0 rest] eqn:Hlm.
  - destruct (adds_stuck_leaf self g
                {| ticks := ticks w; trace := EvMoves g :: trace w |})
      as (evs & Hevs & HP).
    exists (evs ++ [EvMoves g]). split.
    + rewrite Hevs, <- app_assoc. reflexivity.
    + apply Forall_app. split; [exact HP|].
      constructor; [apply P_moves|constructor].
  - destruct (Hloop (m0 :: rest) (fun mv H => H)
                {| ticks := ticks w; trace := EvMoves g :: trace w |})
      as (evs & Hevs & HP).
    exists (evs ++ [EvMoves g]). split.
    + rewrite Hevs, <- app_assoc. reflexivity.
    + apply Forall_app. split; [exact HP|].
      constructor; [apply P_moves|constructor].
Qed.

Lemma adds_search self d :
  (forall g a b, adds P (_max_value self d g a b)) /\
  (forall g a b, adds P (_min_value self d g a b)).
Proof.
  induction d as [|d [IHmax IHmin]]; split; intros g a b;
    (rewrite max_value_unfold || rewrite min_value_unfold);
    (apply adds_bind; [apply adds_check_time|intros _]);
    try apply adds_depth_leaf.
  - apply (adds_node self g
             (fun lm => max_loop (_min_value self d) g lm NegInf sentinel a b)).
    intros moves Hin. apply adds_max_loop; assumption.
  - apply (adds_node self g
             (fun lm => min_loop (_max_value self d) g lm PosInf sentinel a b)).
    intros moves Hin. apply adds_min_loop; assumption.
Qed.

Lemma adds_alphabeta self g d a b : adds P (alphabeta self g d a b).
Proof.
  unfold alphabeta. apply adds_bind; [apply adds_check_time|intros _].
  apply adds_bind; [apply (proj1 (adds_search self d))|intros r].
  apply adds_ret.
Qed.

Lemma adds_loop_body self g (l : locals) : adds P (loop_body self g l).
Proof.
  unfold loop_body. apply adds_bind; [apply adds_alphabeta|intros m].
  apply adds_ret.
Qed.

Lemma adds_iterate self g n (l l' : locals) w w1 :
  iterate n self g l w = Some (l', w1) ->
  exists evs, trace w1 = evs ++ trace w /\ Forall P evs.
Proof.
  revert l' w1. induction n as [|n IH]; intros l' w1 H.
  - simpl in H. injection H as _ <-. exists [].
    split; [reflexivity|constructor].
  - simpl in H. destruct (iterate n self g l w) as [[l0 w0]|]; [|discriminate].
    destruct (IH l0 w0 eq_refl) as (evs & Hevs & HP).
    destruct (adds_loop_body self g l0 w0) as (evs' & Hevs' & HP').
    destruct (loop_body self g l0 w0) as [[l2|e] w2]; [|discriminate].
    injection H as _ <-. simpl in Hevs'.
    exists (evs' ++ evs). split.
    + rewrite Hevs', Hevs. apply app_assoc.
    + apply Forall_app. split; assumption.
Qed.

End Events.

Section FurtherEvents.

Context {game player : Type} {B : Board game player}.

Implicit Types (self : CustomPlayer game player) (g : game) (w : world game).

(** X12.  Whatever its arguments, a fixed-depth search never draws from
    the random generator and applies [forecast_move] only to a state and a
    move that is legal for the side to move in it. *)
Theorem search_calls_are_legal self g d alpha beta :
  adds search_event (alphabeta self g d alpha beta) /\
  adds search_event (_max_value self d g alpha beta) /\
  adds search_event (_min_value self d g alpha beta).
Proof.
  assert (Hs : forall d',
             (forall g' a' b', adds search_event (_max_value self d' g' a' b'))
             /\ (forall g' a' b',
                    adds search_event (_min_value self d' g' a' b'))).
  { intros d'. apply adds_search; simpl; auto. }
  split; [|split].
  - apply adds_alphabeta; simpl; auto.
  - apply (proj1 (Hs d)).
  - apply (proj2 (Hs d)).
Qed.

(** X13.  A returning call of [get_move] draws from the random generator
    at most once, as its last action; all its other collaborator calls are
    those of the searches and the enumeration of the moves of the root. *)
Theorem get_move_draws_at_most_once fuel self g clk seed w r self' w' :
  get_move fuel self g clk seed w = Some (r, self', w') ->
  exists evs,
    trace w' = evs ++ trace w /\
    (Forall search_event evs \/
     exists evs', evs = EvRandom :: evs' /\ Forall search_event evs').
Proof.
  intros H.
  destruct (get_legal_moves g (active_player g)) as [|m0 rest] eqn:Hlm.
  - rewrite get_move_unfold, Hlm in H. injection H as _ _ <-.
    exists [EvMoves g]. split; [reflexivity|]. left.
    constructor; [exact I|constructor].
  - assert (Hne : get_legal_moves g (active_player g) <> []) by congruence.
    destruct (get_move_run _ _ _ _ _ _ Hne H)
      as (-> & n & l & w1 & w2 & _ & Hit & Hraise & Hafter).
    destruct (@adds_iterate _ _ _ search_event I (fun _ => I) (fun _ => I)
                (fun _ => I) (fun _ _ Hin => Hin)
                (set_time_left self clk) g n _ _ _ _ Hit)
      as (evs1 & Hevs1 & HP1).
    destruct (@adds_loop_body _ _ _ search_event I (fun _ => I) (fun _ => I)
                (fun _ => I) (fun _ _ Hin => Hin)
                (set_time_left self clk) g l w1)
      as (evs2 & Hevs2 & HP2).
    rewrite Hraise in Hevs2. simpl in Hevs2, Hevs1.
    assert (Hsearch : Forall search_event (evs2 ++ evs1 ++ [EvMoves g])).
    { apply Forall_app. split; [exact HP2|]. apply Forall_app.
      split; [exact HP1|]. constructor; [exact I|constructor]. }
    assert (Htr : trace w2 = (evs2 ++ evs1 ++ [EvMoves g]) ++ trace w).
    { rewrite Hevs2, Hevs1, <- !app_assoc. reflexivity. }
    rewrite after_loop_run in Hafter.
    destruct (move_eqb (chosen_move_in_time l) sentinel);
      injection Hafter as _ ->.
    + exists (EvRandom :: evs2 ++ evs1 ++ [EvMoves g]). split.
      * simpl. rewrite Htr. reflexivity.
      * right. eexists. split; [reflexivity|exact Hsearch].
    + eexists. split; [exact Htr|]. left. exact Hsearch.
Qed.

End FurtherEvents.

(** ** The further properties on the synthetic games *)

Lemma pruned_score_against_window_witness :
  bounds (Fin 0) (Fin 10) (Fin 3)
         (fst (minimax_max (reader steady) 2 scored)).
Proof.
  assert (Hab : slt (Fin 0) (Fin 10)) by reflexivity.
  eapply (proj1 (@pruned_score_against_window _ _ _ (reader steady) 2 scored
                   (Fin 0) (Fin 10) w0 Hab) (Fin 3, a)).
  vm_compute. reflexivity.
Defined.

Lemma full_window_score_is_minimax_score_witness :
  sc_equiv (Fin 3) (fst (minimax_max (reader steady) 2 scored)).
Proof.
  eapply (proj1 (@full_window_score_is_minimax_score _ _ _ (reader steady) 2
                   scored w0 (Fin 3, a) _)).
  vm_compute. reflexivity.
Defined.

Lemma alphabeta_returns_first_best_move_witness :
  (a = sentinel /\
   forall m, In m (get_legal_moves scored (active_player scored)) ->
             sle (fst (minimax_min (reader steady) 1
                         (forecast_move scored m))) NegInf) \/
  (exists pre post,
      get_legal_moves scored (active_player scored) = pre ++ a :: post /\
      slt NegInf (fst (minimax_min (reader steady) 1 (forecast_move scored a)))
      /\
      (forall m, In m pre ->
         slt (fst (minimax_min (reader steady) 1 (forecast_move scored m)))
             (fst (minimax_min (reader steady) 1 (forecast_move scored a)))) /\
      (forall m, In m post ->
         sle (fst (minimax_min (reader steady) 1 (forecast_move scored m)))
             (fst (minimax_min (reader steady) 1 (forecast_move scored a))))).
Proof.
  eapply (@alphabeta_returns_first_best_move _ _ _ (reader steady) scored 1
            w0 a).
  vm_compute. reflexivity.
Defined.

Lemma search_stops_at_first_low_reading_witness :
  sound ten_reads (TIMER_THRESHOLD (reader ten_reads))
        (alphabeta (reader ten_reads) scored 2 NegInf PosInf) /\
  sound ten_reads (TIMER_THRESHOLD (reader ten_reads))
        (_max_value (reader ten_reads) 2 scored NegInf PosInf) /\
  sound ten_reads (TIMER_THRESHOLD (reader ten_reads))
        (_min_value (reader ten_reads) 2 scored NegInf PosInf).
Proof. apply search_stops_at_first_low_reading. reflexivity. Defined.

Lemma search_without_clock_raises_TypeError_witness :
  alphabeta agent trapped 2 NegInf PosInf w0 = (Raise TypeError, w0) /\
  _max_value agent 2 trapped NegInf PosInf w0 = (Raise TypeError, w0) /\
  _min_value agent 2 trapped NegInf PosInf w0 = (Raise TypeError, w0).
Proof. apply search_without_clock_raises_TypeError. reflexivity. Defined.

Lemma alphabeta_at_a_leaf_root_witness :
  alphabeta (reader steady) (stuck x) 0 NegInf PosInf w0
  = (Ok (get_player_location (stuck x) true),
     mkWorld 2 [EvLocation (stuck x); EvScore (stuck x); EvClock; EvClock]) /\
  (get_legal_moves (stuck x) (active_player (stuck x)) = [] ->
   alphabeta (reader steady) (stuck x) 3 NegInf PosInf w0
   = (Ok sentinel,
      mkWorld 2 [EvScore (stuck x); EvMoves (stuck x); EvClock; EvClock])).
Proof.
  apply (@alphabeta_at_a_leaf_root _ _ _ (reader steady) steady (stuck x) 2
           w0); reflexivity.
Defined.

Lemma get_move_with_expired_clock_witness :
  get_move 1 agent trapped expired 1 w0
  = Some (Ok b, set_time_left agent expired,
          mkWorld 1 [EvRandom; EvClock; EvMoves trapped]).
Proof.
  assert (Hlm : get_legal_moves trapped (active_player trapped) <> [])
    by (vm_compute; discriminate).
  exact (@get_move_with_expired_clock _ _ _ 0 agent trapped expired 1 w0
           Hlm eq_refl).
Defined.

(** On [trapped] with ten good readings the call makes eleven. *)
Lemma get_move_stops_at_first_low_reading_witness :
  exists n,
    11%nat = S n /\
    (ticks w0 <= n)%nat /\
    Qltb (ten_reads n) (TIMER_THRESHOLD agent) = true /\
    (forall i, (ticks w0 <= i < n)%nat ->
               Qltb (ten_reads i) (TIMER_THRESHOLD agent) = false).
Proof.
  assert (Hlm : get_legal_moves trapped (active_player trapped) <> [])
    by (vm_compute; discriminate).
  assert (Hrun : exists w',
             get_move 3 agent trapped ten_reads 1 w0
             = Some (Ok b, set_time_left agent ten_reads, w') /\
             ticks w' = 11%nat).
  { eexists. split; vm_compute; reflexivity. }
  destruct Hrun as (w' & Hrun & Hticks).
  rewrite <- Hticks.
  exact (@get_move_stops_at_first_low_reading _ _ _ 3 agent trapped ten_reads
           1 w0 (Ok b) (set_time_left agent ten_reads) w' Hlm Hrun).
Defined.

(** On [scored] with twelve good readings depths 1 and 2 complete and the
    call returns [a], the minimax move of depth 2. *)
Lemma get_move_returns_deepest_minimax_move_witness :
  exists n l w1 w2,
    iterate n (set_time_left (reader steady) (reads 12)) scored
      initial_locals (entered scored w0) = Some (l, w1) /\
    alphabeta (set_time_left (reader steady) (reads 12)) scored (S n)
      NegInf PosInf w1 = (Raise SearchTimeout, w2) /\
    (((1 <= n)%nat /\
      minimax (set_time_left (reader steady) (reads 12)) scored n
      <> sentinel /\
      Ok a = Ok (minimax (set_time_left (reader steady) (reads 12)) scored n))
     \/
     ((n = 0%nat \/
       minimax (set_time_left (reader steady) (reads 12)) scored n = sentinel)
      /\
      Ok a
      = Ok (nth (0 mod length (get_legal_moves scored (active_player scored)))
                (get_legal_moves scored (active_player scored)) sentinel))).
Proof.
  eapply (@get_move_returns_deepest_minimax_move _ _ _ 3 (reader steady)
            scored (reads 12) 0 w0 (Ok a)
            (set_time_left (reader steady) (reads 12))).
  - vm_compute. discriminate.
  - vm_compute. reflexivity.
Defined.

Example deepest_minimax_move_on_scored :
  minimax (set_time_left (reader steady) (reads 12)) scored 1 = sentinel /\
  minimax (set_time_left (reader steady) (reads 12)) scored 2 = a.
Proof. split; reflexivity. Qed.

(** After [b] the agent has one more move than after [a], all else equal. *)
Lemma custom_score_monotone_witness :
  slt (custom_score (forecast_move trapped a) true)
      (custom_score (forecast_move trapped b) true).
Proof.
  apply (@custom_score_monotone _ _ _ (forecast_move trapped a)
           (forecast_move trapped b) true);
    try reflexivity; simpl; lia.
Defined.

Lemma get_move_draws_at_most_once_witness :
  exists evs,
    trace (mkWorld 1 [EvRandom; EvClock; EvMoves trapped])
    = evs ++ trace w0 /\
    (Forall search_event evs \/
     exists evs', evs = EvRandom :: evs' /\ Forall search_event evs').
Proof.
  apply (@get_move_draws_at_most_once _ _ _ 1 agent trapped expired 1 w0
           (Ok b) (set_time_left agent expired)).
  vm_compute. reflexivity.
Defined.
